(** * VietNet browser: seed resolution, annotation lookup and tree nodes

    A shallow embedding of [components/utils_search.py] and
    [components/class_Node.py], with the properties of the search and
    lookup functions stated and proved over it. *)

From Stdlib Require Import QArith Qcanon.
From stdpp Require Import base numbers list strings pretty gmap sorting.

Set Default Proof Using "Type".

(** ** Python strings

    A Python [str] is a sequence of Unicode code points. *)

Definition char : Type := N.
Definition str : Type := list char.

(** Decoding of the UTF-8 bytes of a literal of this file into code points
    (only used to write the string literals of the source). *)
Fixpoint utf8_decode (bs : list N) : str :=
  match bs with
  | [] => []
  | b :: bs1 =>
    if (b <? 128)%N then b :: utf8_decode bs1
    else if (b <? 224)%N then
      match bs1 with
      | b1 :: bs2 => ((b - 192) * 64 + (b1 - 128))%N :: utf8_decode bs2
      | _ => []
      end
    else if (b <? 240)%N then
      match bs1 with
      | b1 :: b2 :: bs3 =>
        ((b - 224) * 4096 + (b1 - 128) * 64 + (b2 - 128))%N :: utf8_decode bs3
      | _ => []
      end
    else
      match bs1 with
      | b1 :: b2 :: b3 :: bs4 =>
        ((b - 240) * 262144 + (b1 - 128) * 4096 + (b2 - 128) * 64 + (b3 - 128))%N
          :: utf8_decode bs4
      | _ => []
      end
  end.

Definition py (s : string) : str :=
  utf8_decode (Ascii.N_of_ascii <$> String.list_ascii_of_string s).

(** [str(n)] for a non-negative [int]: its decimal digits. *)
Definition str_of_nat (n : nat) : str := py (pretty n).

Global Arguments py : simpl never.
Global Arguments str_of_nat : simpl never.

(** [sep.join(l)] *)
Fixpoint join (sep : str) (l : list str) : str :=
  match l with
  | [] => []
  | [x] => x
  | x :: l' => x ++ sep ++ join sep l'
  end.

(** [c.isspace()]: the code points Python treats as whitespace. *)
Definition isspace (c : char) : bool :=
  ((9 <=? c) && (c <=? 13) || (28 <=? c) && (c <=? 32)
   || (c =? 133) || (c =? 160) || (c =? 5760)
   || (8192 <=? c) && (c <=? 8202)
   || (c =? 8232) || (c =? 8233) || (c =? 8239) || (c =? 8287)
   || (c =? 12288))%N.

(** [s.lstrip()], [s.rstrip()] and [s.strip()] *)
Fixpoint lstrip (s : str) : str :=
  match s with
  | [] => []
  | c :: s' => if isspace c then lstrip s' else s
  end.

Definition rstrip (s : str) : str := reverse (lstrip (reverse s)).

Definition strip (s : str) : str := rstrip (lstrip s).

(** A run of whitespace. *)
Definition all_space (s : str) : Prop := Forall (λ c, isspace c = true) s.

(** [s.startswith(prefix)] *)
Fixpoint startswith (s prefix : str) {struct prefix} : bool :=
  match prefix, s with
  | [], _ => true
  | p :: prefix', c :: s' => bool_decide (p = c) && startswith s' prefix'
  | _ :: _, [] => false
  end.

(** [needle in s]: substring test *)
Fixpoint contains (needle s : str) : bool :=
  startswith s needle ||
  match s with
  | [] => false
  | _ :: s' => contains needle s'
  end.

(** ** Python values, the graph provider and the annotation store *)

(** A synset object of the [wn] library is a handle on an identifier; its
    methods ask the lexicon it came from. *)
Record Synset := mkSynset { synset_id : str }.

Global Instance Synset_eq_dec : EqDecision Synset.
Proof. solve_decision. Defined.

Inductive relation_kind := hypernym | hyponym | meronym | holonym.

(** The [lexicon] object ([wn.Wordnet]): identifier lookup, where [None]
    stands for an identifier the lexicon does not know (the lookup then
    raises [wn.Error]), lemma lookup restricted to a part of speech, and the
    methods of its synsets. *)
Record Wordnet := mkWordnet {
  wn_synset : str → option Synset;
  wn_synsets : str → string → list Synset;
  wn_lemmas : Synset → list str;
  wn_definition : Synset → option str;
  wn_examples : Synset → list str;
  wn_relations : Synset → relation_kind → list Synset
}.

(** The Python values that flow through the search functions. *)
Inductive pyval :=
| PyNone
| PyStr (s : str)
| PySynset (x : Synset).

Global Instance pyval_eq_dec : EqDecision pyval.
Proof. solve_decision. Defined.

(** Truth value of an object in an [if]. *)
Definition truthy (v : pyval) : bool :=
  match v with
  | PyNone => false
  | PyStr s => negb (bool_decide (s = []))
  | PySynset _ => true
  end.

(** Modelled from the spec: the schema of the three tables of the store
    (the database file is not part of the sources).  The exact-match table
    holds a source word and a graph identifier, the fuzzy-match table a
    source word and a word label, the annotation table a graph identifier,
    a translated lemma, a translated definition and a translated example
    (both may be NULL) and the is-same flag. *)
Record exact_row := mkExactRow { exact_tieng : str; exact_synset_id : str }.
Record fuzz_row := mkFuzzRow { fuzz_tieng : str; fuzz_word : str }.
Record data_row := mkDataRow {
  data_synset_id : str;
  viet_word : str;
  viet_definition : option str;
  viet_example : option str;
  is_same : bool
}.

Record Database := mkDatabase {
  VIETNET_DATA : list data_row;
  VIETNET_EXACT_SEARCH : list exact_row;
  VIETNET_FUZZ_SEARCH : list fuzz_row
}.

(** ** Effects: reads of the store, calls of the provider, exceptions *)

Inductive exn :=
| DatabaseError (db_path : str) (table : string)
| KeyError (key : string)
| WnError (ssid : str).

Inductive event :=
| ReadSql (db_path : str) (table : string)
| WnSynset (ssid : str)
| WnSynsets (form : str) (pos : string)
| SynsetLemmas (ssid : str)
| SynsetDefinition (ssid : str)
| SynsetExamples (ssid : str).

(** The world a call runs in: the database files by path, and the trace of
    the reads and provider calls made so far. *)
Record world := mkWorld {
  files : gmap str Database;
  trace : list event
}.

Definition log (e : event) (w : world) : world :=
  {| files := files w; trace := trace w ++ [e] |}.

(** Several events logged in turn. *)
Definition log_all (es : list event) (w : world) : world :=
  foldl (λ w e, log e w) w es.

Definition M (A : Type) : Type := world → (exn + A) * world.

Global Instance M_ret : MRet M := λ A (x : A) w, (inr x, w).
Global Instance M_bind : MBind M := λ A B (f : A → M B) (c : M A) w,
  match c w with
  | (inl e, w') => (inl e, w')
  | (inr x, w') => f x w'
  end.

Definition raise {A} (e : exn) : M A := λ w, (inl e, w).

(** [pd.read_sql_query("SELECT * FROM <table>", sqlite3.connect(db_path))]:
    the rows of the table in store order, or an exception when the store at
    [db_path] cannot be read. *)
Definition read_sql_query {A} (table : string) (rows : Database → list A)
    (db_path : str) : M (list A) := λ w,
  match files w !! db_path with
  | Some db => (inr (rows db), log (ReadSql db_path table) w)
  | None => (inl (DatabaseError db_path table), log (ReadSql db_path table) w)
  end.

(** [lexicon.synset(ssid)]: the synset, or [wn.Error] raised for an
    identifier the lexicon does not know. *)
Definition lexicon_synset (lexicon : Wordnet) (ssid : str) : M pyval := λ w,
  match wn_synset lexicon ssid with
  | Some synset => (inr (PySynset synset), log (WnSynset ssid) w)
  | None => (inl (WnError ssid), log (WnSynset ssid) w)
  end.

(** [lexicon.synsets(form, pos=pos)] *)

Definition lexicon_synsets (lexicon : Wordnet) (form : str) (pos : string)
    : M (list pyval) := λ w,
  (inr (PySynset <$> wn_synsets lexicon form pos), log (WnSynsets form pos) w).

(** [synset.lemmas()], [synset.definition()] and [synset.examples()]:
    calls of the provider. *)
Definition synset_lemmas (lexicon : Wordnet) (synset : Synset) : M (list str) :=
  λ w, (inr (wn_lemmas lexicon synset), log (SynsetLemmas (synset_id synset)) w).

Definition synset_definition (lexicon : Wordnet) (synset : Synset)
    : M (option str) :=
  λ w, (inr (wn_definition lexicon synset),
        log (SynsetDefinition (synset_id synset)) w).

Definition synset_examples (lexicon : Wordnet) (synset : Synset) : M (list str) :=
  λ w, (inr (wn_examples lexicon synset),
        log (SynsetExamples (synset_id synset)) w).

(** [d[key]] on a dict with string keys *)
Definition getitem (d : gmap string pyval) (key : string) : M pyval :=
  match d !! key with
  | Some v => mret v
  | None => raise (KeyError key)
  end.

(** ** [get_viet_info_from_synset] *)

(** How an f-string renders a cell: [None] prints as the word None. *)
Definition format_value (v : option str) : str :=
  match v with
  | Some s => s
  | None => py "None"
  end.

(** The loop over [range(len(definitions_list))]. *)
Definition definitions_loop (definitions_list : list (option str)) : str :=
  foldl (λ definitions i,
           match definitions_list !! i with
           | Some d => definitions ++ str_of_nat (i + 1) ++ py ". " ++ format_value d ++ py " | "
           | None => definitions
           end)
        [] (seq 0 (length definitions_list)).

(** The loop over [range(len(examples_list))], with its counter [ex_count]. *)
Definition examples_loop (examples_list : list (option str)) : str * nat :=
  foldl (λ '(examples, ex_count) i,
           match examples_list !! i with
           | Some (Some e) =>
               (examples ++ str_of_nat (ex_count + 1) ++ py ". " ++ e ++ py " | ",
                ex_count + 1)
           | _ => (examples, ex_count)
           end)
        ([], 0) (seq 0 (length examples_list)).

Definition get_viet_info_from_synset (synset_id db_path : str)
    : M (gmap string pyval) :=
  df_search ← read_sql_query "VIETNET_DATA"
    (λ db, filter (λ r, data_synset_id r = synset_id) (VIETNET_DATA db)) db_path;
  if negb (bool_decide (df_search = [])) then
    let lemmas_list := viet_word <$> df_search in
    let lemmas :=
      if bool_decide (lemmas_list = []) then PyNone
      else PyStr (join (py ", ") lemmas_list) in
    let definitions_list := viet_definition <$> df_search in
    let definitions := definitions_loop definitions_list in
    let examples_list := viet_example <$> df_search in
    let examples := (examples_loop examples_list).1 in
    mret ({[ "viet_word" := lemmas;
             "viet_definition" := PyStr definitions;
             "viet_example" := PyStr examples ]} : gmap string pyval)
  else
    mret ({[ "viet_word" := PyNone;
             "viet_definition" := PyNone;
             "viet_example" := PyNone ]} : gmap string pyval).

(** ** [class Node] *)

#[local] Set Warnings "-register-all,-automation".

Inductive Node := mkNode {
  _synset : Synset;
  _viet_lemmas : pyval;
  _viet_definition : pyval;
  _viet_example : pyval;
  _is_same : pyval;
  _lemmas : str;
  _definition : option str;
  _example : list str;
  _level : nat;
  _children : list Node
}.

(** The [children] setter. *)
Definition set_children (n : Node) (value : list Node) : Node :=
  {| _synset := _synset n; _viet_lemmas := _viet_lemmas n;
     _viet_definition := _viet_definition n; _viet_example := _viet_example n;
     _is_same := _is_same n; _lemmas := _lemmas n; _definition := _definition n;
     _example := _example n; _level := _level n; _children := value |}.

Section TreeNode.

(** The function the module of [Node] has under the name
    [get_viet_info_from_synset]. *)
Variable lookup : str → str → M (gmap string pyval).

(** The lexicon the synset objects belong to, and the store they are
    annotated from. *)
Variable lexicon : Wordnet.
Variable folder_path : str.

(** [Node.__init__(self, synset, folder_path, recursive_level)] *)
Definition Node_new (synset : Synset) (recursive_level : nat) : M Node :=
  search_result ← lookup (synset_id synset) folder_path;
  viet_lemmas ← getitem search_result "viet_word";
  viet_definition ← getitem search_result "viet_definition";
  viet_example ← getitem search_result "viet_example";
  is_same ← getitem search_result "is_same";
  lemmas ← synset_lemmas lexicon synset;
  definition ← synset_definition lexicon synset;
  example ← synset_examples lexicon synset;
  mret {| _synset := synset;
          _viet_lemmas := viet_lemmas;
          _viet_definition := viet_definition;
          _viet_example := viet_example;
          _is_same := is_same;
          _lemmas := join (py ", ") lemmas;
          _definition := definition;
          _example := example;
          _level := recursive_level;
          _children := [] |}.

(** Modelled from the spec: the tree builder ([class_NodeFamily] is not
    part of the sources), §4.6.  A node at depth [d] below the maximum
    gets one child at depth [d + 1] per target of the chosen relation, in
    the provider's order; a node at the maximum depth gets none.  [budget]
    is the number of levels left below the node, [max_depth - d]. *)
Fixpoint expand (relation : relation_kind) (budget : nat) (d : nat)
    (synset : Synset) : M Node :=
  node ← Node_new synset d;
  match budget with
  | 0 => mret node
  | S budget' =>
    children ← mapM (expand relation budget' (S d))
                    (wn_relations lexicon synset relation);
    mret (set_children node children)
  end.

(** Modelled from the spec: [build(seeds, relation, version, max_depth)],
    one root at depth 0 per seed (§4.6). *)
Definition build (seeds : list Synset) (relation : relation_kind)
    (max_depth : nat) : M (list Node) :=
  mapM (expand relation max_depth 0) seeds.

End TreeNode.

(** [Node(synset, folder_path, recursive_level)] as the sources bind it. *)
Definition Node_init (lexicon : Wordnet) (synset : Synset) (folder_path : str)
    (recursive_level : nat) : M Node :=
  Node_new get_viet_info_from_synset lexicon folder_path synset recursive_level.

(** All the nodes of a tree, the root first. *)
Fixpoint subnodes (n : Node) : list Node :=
  n :: concat (map subnodes (_children n)).

(** ** The search functions *)

(** Stable sort by a key, as [list.sort(key=...)]. *)
Fixpoint insert_by {A} (key : A → Qc) (x : A) (l : list A) : list A :=
  match l with
  | [] => [x]
  | y :: l' =>
    if bool_decide (key x ≤ key y)%Qc then x :: l else y :: insert_by key x l'
  end.

Definition sort_by {A} (key : A → Qc) (l : list A) : list A :=
  foldr (insert_by key) [] l.

(** [list(set(l))]: the elements of [l], each once.  Python does not fix
    the order in which a set is iterated; the order kept here is one of
    them, and no property below depends on it. *)
Definition list_of_set {A} `{EqDecision A} (l : list A) : list A :=
  remove_dups l.

Section Search.

(** [str.lower] of the Python runtime (the Unicode case mapping). *)
Variable lower : str → str.

(** [rapidfuzz.fuzz.ratio]; its results are finite floats, taken here
    as the rational numbers they denote. *)
Variable ratio : str → str → Qc.

Definition normalize (text : str) : str := strip (lower text).

Definition exact_search_vietnet_search (user_input db_path : str)
    : M (list str) :=
  let query := normalize user_input in
  df_search ← read_sql_query "VIETNET_EXACT_SEARCH" VIETNET_EXACT_SEARCH db_path;
  mret (foldl (λ results row,
                 let tieng := normalize (exact_tieng row) in
                 if bool_decide (query = tieng)
                 then results ++ [exact_synset_id row]
                 else results)
              [] df_search).

Definition fuzzy_search_vietnet_search (user_input db_path : str)
    (threshold : Qc) : M (list str) :=
  let query := normalize user_input in
  df_search ← read_sql_query "VIETNET_FUZZ_SEARCH" VIETNET_FUZZ_SEARCH db_path;
  let results :=
    foldl (λ results row,
             let tieng := normalize (fuzz_tieng row) in
             let score := ratio query tieng in
             if bool_decide (threshold ≤ score)%Qc
             then results ++ [(fuzz_word row, score)]
             else results)
          [] df_search in
  let results := list_of_set results in
  let results := sort_by (λ x, - x.2)%Qc results in
  mret (fst <$> results).

(** The default of the parameter [threshold]. *)
Definition default_threshold : Qc := Qc_of_Z 80.

Definition search_function (user_input : str) (lexicon : Wordnet)
    (db_path : str) : M (list pyval * pyval) :=
  if contains (py "oewn-") user_input then
    let ssid := strip user_input in
    found ← lexicon_synset lexicon ssid;
    if truthy found then mret ([PyStr ssid], PyNone)
    else mret ([], PyStr (py "Synset_ID " ++ ssid ++ py " không tồn tại"))
  else
    temp ← exact_search_vietnet_search user_input db_path;
    viet ← mapM (lexicon_synset lexicon) temp;
    eng ← lexicon_synsets lexicon user_input "n";
    let result := viet ++ eng in
    if bool_decide (result = []) then
      recommended_search ←
        fuzzy_search_vietnet_search user_input db_path default_threshold;
      let suggestion := join (py " | ") (take 5 recommended_search) in
      mret ([], PyStr (py "Bạn hãy thử tìm các từ sau: " ++ suggestion))
    else
      mret (list_of_set result, PyNone).

(** The identifiers the exact matcher is to find: those of the rows
    whose normalized source word equals the normalized query. *)
Definition exact_matches (db : Database) (query : str) : list str :=
  exact_synset_id <$>
    filter (λ row, normalize query = normalize (exact_tieng row))
           (VIETNET_EXACT_SEARCH db).

(** The pairs the fuzzy matcher ranks: word label and score of the rows
    whose normalized source word scores at least the threshold, without
    repeated pairs, in the order the sort leaves them. *)
Definition fuzzy_scored (db : Database) (query : str) (threshold : Qc)
    : list (str * Qc) :=
  sort_by (λ x, - x.2)%Qc
    (remove_dups
       ((λ row, (fuzz_word row,
                 ratio (normalize query) (normalize (fuzz_tieng row)))) <$>
        filter (λ row, (threshold
                        ≤ ratio (normalize query) (normalize (fuzz_tieng row)))%Qc)
               (VIETNET_FUZZ_SEARCH db))).

End Search.

(** ** The aggregation rules as the specification words them

    The items of a list are numbered one after the other, each giving
    ["{i}. {item} | "]. *)
Fixpoint numbered_from (i : nat) (items : list str) : str :=
  match items with
  | [] => []
  | item :: items' =>
    str_of_nat i ++ py ". " ++ item ++ py " | " ++ numbered_from (S i) items'
  end.

Definition numbered (items : list str) : str := numbered_from 1 items.

(** Every row is numbered, a NULL definition included. *)
Definition spec_definitions (rows : list data_row) : str :=
  numbered ((λ r, format_value (viet_definition r)) <$> rows).

(** Only the rows with an example are numbered, among themselves. *)
Definition spec_examples (rows : list data_row) : str :=
  numbered (omap viet_example rows).

(** The rows of the annotation table for one identifier, in store order. *)
Definition annotation_rows (db : Database) (synset_id : str) : list data_row :=
  filter (λ r, data_synset_id r = synset_id) (VIETNET_DATA db).

(** ** Instances used in the examples *)

(** [str.lower] on strings whose code points are all below U+0100, where
    the case mapping is per character: A-Z and the Latin-1 capitals move
    up by 32. *)
Definition lower_char (c : char) : char :=
  if ((65 <=? c) && (c <=? 90)
      || (192 <=? c) && (c <=? 222) && negb (c =? 215))%N
  then (c + 32)%N else c.

Definition lower_latin1 (s : str) : str := lower_char <$> s.

(** A similarity that only tells equal strings from different ones. *)
Definition ratio_same (a b : str) : Qc :=
  if bool_decide (a = b) then Qc_of_Z 100 else Qc_of_Z 0.

(** A small store, a lexicon with two synsets and a world holding the
    store under the path [db]. *)
Definition demo_db : Database := {|
  VIETNET_DATA :=
    [ mkDataRow (py "oewn-1-n") (py "a") (Some (py "A")) None true;
      mkDataRow (py "oewn-2-n") (py "x") None None true;
      mkDataRow (py "oewn-1-n") (py "b") (Some (py "B")) (Some (py "ex1")) false ];
  VIETNET_EXACT_SEARCH :=
    [ mkExactRow (py "Con Chó ") (py "oewn-1-n");
      mkExactRow (py "dog") (py "oewn-1-n") ];
  VIETNET_FUZZ_SEARCH :=
    [ mkFuzzRow (py "con mèo") (py "con mèo");
      mkFuzzRow (py "Con Mèo") (py "con mèo");
      mkFuzzRow (py "con chó") (py "con chó") ]
|}.

Definition demo_lexicon : Wordnet := {|
  wn_synset := λ ssid,
    if bool_decide (ssid = py "oewn-1-n") || bool_decide (ssid = py "oewn-2-n")
    then Some (mkSynset ssid) else None;
  wn_synsets := λ form pos,
    if bool_decide (form = py "dog") then [mkSynset (py "oewn-1-n")] else [];
  wn_lemmas := λ _, [py "dog"];
  wn_definition := λ _, None;
  wn_examples := λ _, [];
  wn_relations := λ synset _,
    if bool_decide (synset = mkSynset (py "oewn-1-n"))
    then [mkSynset (py "oewn-2-n"); mkSynset (py "oewn-1-n")] else []
|}.

Definition demo_world : world :=
  {| files := {[ py "db" := demo_db ]}; trace := [] |}.

(** The lookup completed with an entry for the key [is_same], the record
    the constructor of [Node] reads. *)
Definition get_viet_info_flagged (synset_id db_path : str)
    : M (gmap string pyval) :=
  record ← get_viet_info_from_synset synset_id db_path;
  mret (<["is_same" := PyNone]> record).

(** A store whose fuzzy-match table has six labels for one source word. *)
Definition crowded_db : Database := {|
  VIETNET_DATA := [];
  VIETNET_EXACT_SEARCH := [];
  VIETNET_FUZZ_SEARCH :=
    [ mkFuzzRow (py "con") (py "a"); mkFuzzRow (py "con") (py "b");
      mkFuzzRow (py "con") (py "c"); mkFuzzRow (py "con") (py "d");
      mkFuzzRow (py "con") (py "e"); mkFuzzRow (py "con") (py "f") ]
|}.

Definition crowded_world : world :=
  {| files := {[ py "db" := crowded_db ]}; trace := [] |}.

(** ** The page script [vietnet_browser.py]

    What the script puts on the page for the values of its widgets.  The
    tree builder [NodeFamily] and the renderers are not part of the sources:
    a view records the arguments [NodeFamily] is called with. *)
Inductive page :=
| Idle
| Message (search_message : pyval)
| TreeView (synsets : list pyval) (relationship_type folder_path : str)
    (max_recursive : nat)
| GraphView (synsets : list pyval) (relationship_type folder_path : str)
    (max_recursive : nat).

(** The store chosen by the radio button [database_version]. *)
Definition folder_path_of (database_version : str) : str :=
  if bool_decide (database_version = py "Version 1 - Không có bước đánh giá")
  then py "data/vietnet_data_v1"
  else if bool_decide (database_version = py "Version 2 - Đánh giá 4 mức")
  then py "data/vietnet_data_v2"
  else [].

Section Browser.

Variable lower : str → str.
Variable ratio : str → str → Qc.

(** The body of the script from [if word:] on; [lexicon] is the object
    [wn.Wordnet('oewn:2024')]. *)
Definition vietnet_browser (relationship_type : str) (max_recursive : nat)
    (view_mode database_version word : str) (lexicon : Wordnet) : M page :=
  if truthy (PyStr word) then
    let folder_path := folder_path_of database_version in
    '(synsets, search_message) ← search_function lower ratio word lexicon folder_path;
    if truthy search_message then mret (Message search_message)
    else if bool_decide (view_mode = py "Dạng chữ")
    then mret (TreeView synsets relationship_type folder_path max_recursive)
    else mret (GraphView synsets relationship_type folder_path max_recursive)
  else mret Idle.

End Browser.

(** A similarity with three grades: equal strings, a string that starts
    with the query, anything else. *)
Definition ratio_graded (a b : str) : Qc :=
  if bool_decide (a = b) then Qc_of_Z 100
  else if startswith b a then Qc_of_Z 90
  else Qc_of_Z 0.

(** A store where one label is reached through two source words. *)
Definition graded_db : Database := {|
  VIETNET_DATA := [];
  VIETNET_EXACT_SEARCH := [];
  VIETNET_FUZZ_SEARCH :=
    [ mkFuzzRow (py "con mèo") (py "mèo"); mkFuzzRow (py "con") (py "mèo") ]
|}.

Definition graded_world : world :=
  {| files := {[ py "db" := graded_db ]}; trace := [] |}.

(** ** The domain walk of [create_domain_lexicons.py]

    [wn.synset(id, lexicon=lexicon)] raises for an unknown identifier; here
    the lexicon answers [None].  [synset.relations()] has a key per relation
    with at least one target, so a missing key is an empty list. *)

(** The body of [for hyponym in relations['hyponym']], on the queue, the
    set [visited] and the set [all_hyponyms]. *)
Definition visit_hyponym (state : list Synset * gset str * gset str)
    (hyponym : Synset) : list Synset * gset str * gset str :=
  let '(queue, visited, all_hyponyms) := state in
  let hyponym_id := synset_id hyponym in
  if decide (hyponym_id ∈ visited) then state
  else (queue ++ [hyponym], visited ∪ {[hyponym_id]}, all_hyponyms ∪ {[hyponym_id]}).

(** The loop [while queue]; [fuel] bounds the number of rounds, and the
    result is [None] when it does not suffice. *)
Fixpoint hyponym_walk (fuel : nat) (lexicon : Wordnet) (queue : list Synset)
    (visited all_hyponyms : gset str) : option (gset str) :=
  match queue with
  | [] => Some all_hyponyms
  | current_synset :: queue' =>
    match fuel with
    | 0 => None
    | S fuel' =>
      let '(queue'', visited', all_hyponyms') :=
        foldl visit_hyponym (queue', visited, all_hyponyms)
              (wn_relations lexicon current_synset hyponym) in
      hyponym_walk fuel' lexicon queue'' visited' all_hyponyms'
    end
  end.

Definition get_all_hyponyms (fuel : nat) (lexicon : Wordnet)
    (root_synset_id : str) : option (gset str) :=
  match wn_synset lexicon root_synset_id with
  | None => Some ∅
  | Some root_synset =>
    hyponym_walk fuel lexicon [root_synset] {[root_synset_id]} ∅
  end.

(** One hyponym edge of the lexicon. *)
Definition hyponym_of (lexicon : Wordnet) (parent child : Synset) : Prop :=
  child ∈ wn_relations lexicon parent hyponym.

(** What a round of the walk from [root_synset], asked for as [root_id],
    keeps true of its state: [visited] is the root identifier and the
    hyponyms found, the root identifier is none of them, and everything
    queued or found is reached from the root along hyponym edges. *)
Definition walk_sound (lexicon : Wordnet) (root_synset : Synset) (root_id : str)
    (state : list Synset * gset str * gset str) : Prop :=
  let '(queue, visited, all_hyponyms) := state in
  visited = {[root_id]} ∪ all_hyponyms
  ∧ (root_id ∉ all_hyponyms)
  ∧ (∀ s, s ∈ queue → rtc (hyponym_of lexicon) root_synset s)
  ∧ (∀ id, id ∈ all_hyponyms →
       ∃ s, synset_id s = id ∧ tc (hyponym_of lexicon) root_synset s).

(** What makes the walk exhaustive and finite: the visited identifiers lie
    in the set [universe], and a visited synset is still queued or has all
    its hyponyms visited. *)
Definition walk_closing (lexicon : Wordnet) (universe : gset str)
    (state : list Synset * gset str * gset str) : Prop :=
  let '(queue, visited, all_hyponyms) := state in
  visited ⊆ universe
  ∧ (∀ s, synset_id s ∈ visited →
       s ∈ queue ∨ ∀ h, hyponym_of lexicon s h → synset_id h ∈ visited).

(** [relations_map[synset_id].append({'type': rel_type, 'target': target_id})]
    on a [defaultdict(list)]: a missing key starts from the empty list. *)
Definition append_relation (relations_map : gmap str (list (string * str)))
    (synset_id : str) (rel_type : string) (target_id : str)
    : gmap str (list (string * str)) :=
  <[synset_id := default [] (relations_map !! synset_id) ++ [(rel_type, target_id)]]>
    relations_map.

(** [for target_synset in relations[rel_type]] of [extract_domain_relations],
    for the synset whose identifier is the key [key] (the loop variable
    [synset_id] of the source). *)
Definition collect_targets (domain_synsets : gset str) (key : str)
    (rel_type : string) (targets : list Synset)
    (relations_map : gmap str (list (string * str)))
    : gmap str (list (string * str)) :=
  foldl (λ relations_map target_synset,
           let target_id := synset_id target_synset in
           if decide (target_id ∈ domain_synsets)
           then append_relation relations_map key rel_type target_id
           else relations_map)
        relations_map targets.

(** [extract_domain_relations(domain_synsets)]: the set is gone through in
    the order of [elements], one of the orders Python may take; a synset
    the lexicon does not know is skipped. *)
Definition extract_domain_relations (lexicon : Wordnet)
    (domain_synsets : gset str) : gmap str (list (string * str)) :=
  foldl (λ relations_map key,
           match wn_synset lexicon key with
           | None => relations_map
           | Some synset =>
             collect_targets domain_synsets key "hyponym"
               (wn_relations lexicon synset hyponym)
               (collect_targets domain_synsets key "hypernym"
                  (wn_relations lexicon synset hypernym) relations_map)
           end)
        ∅ (elements domain_synsets).

(** The entries a synset contributes: its hypernyms, then its hyponyms, in
    the provider's order, those with a target inside the domain. *)
Definition domain_entries (lexicon : Wordnet) (domain_synsets : gset str)
    (synset : Synset) : list (string * str) :=
  (("hypernym",.) <$> filter (.∈ domain_synsets)
                        (synset_id <$> wn_relations lexicon synset hypernym))
  ++ (("hyponym",.) <$> filter (.∈ domain_synsets)
                          (synset_id <$> wn_relations lexicon synset hyponym)).

(** A store whose exact-match table names, after a synset of the lexicon
    of the examples, an identifier that lexicon does not know. *)
Definition stale_db : Database := {|
  VIETNET_DATA := [];
  VIETNET_EXACT_SEARCH :=
    [ mkExactRow (py "dog") (py "oewn-1-n");
      mkExactRow (py "Dog") (py "oewn-0-n") ];
  VIETNET_FUZZ_SEARCH := []
|}.

Definition stale_world : world :=
  {| files := {[ py "db" := stale_db ]}; trace := [] |}.

(** * Properties *)

(** ** Strings *)

Example py_ascii : py "oewn-" = [111; 101; 119; 110; 45]%N.
Proof. reflexivity. Qed.

Example py_viet : py "chó" = [99; 104; 243]%N.
Proof. reflexivity. Qed.

Example py_viet3 : py "tồn" = [116; 7891; 110]%N.
Proof. reflexivity. Qed.

Example str_of_nat_12 : str_of_nat 12 = py "12".
Proof. reflexivity. Qed.

Example strip_ex : strip (py "  a b	 ") = py "a b".
Proof. reflexivity. Qed.

Example contains_ex : contains (py "oewn-") (py "x oewn-1 ") = true.
Proof. reflexivity. Qed.

Lemma lstrip_split s : ∃ l, s = l ++ lstrip s ∧ all_space l.
Proof.
  induction s as [|c s [l [Hs Hl]]]; simpl.
  - exists []. split; [done | constructor].
  - destruct (isspace c) eqn:Hc.
    + exists (c :: l). split; [by rewrite Hs at 1 | by constructor].
    + exists []. split; [done | constructor].
Qed.

Lemma lstrip_head s c : head (lstrip s) = Some c → isspace c = false.
Proof.
  induction s as [|a s IH]; simpl; [done |].
  destruct (isspace a) eqn:Ha; [done |]. simpl. by intros [= <-].
Qed.

Lemma lstrip_id s : (∀ c, head s = Some c → isspace c = false) → lstrip s = s.
Proof.
  destruct s as [|a s]; simpl; [done |].
  intros H. by rewrite (H a eq_refl).
Qed.

Lemma rstrip_split s : ∃ r, s = rstrip s ++ r ∧ all_space r.
Proof.
  unfold rstrip. destruct (lstrip_split (reverse s)) as [l [Hs Hl]].
  exists (reverse l). split.
  - rewrite <- reverse_app, <- Hs. by rewrite reverse_involutive.
  - by apply Forall_reverse.
Qed.

Lemma rstrip_last s c : last (rstrip s) = Some c → isspace c = false.
Proof. unfold rstrip. rewrite last_reverse. apply lstrip_head. Qed.

Lemma rstrip_id s : (∀ c, last s = Some c → isspace c = false) → rstrip s = s.
Proof.
  intros H. unfold rstrip. rewrite lstrip_id.
  - apply reverse_involutive.
  - intros c. rewrite head_reverse. apply H.
Qed.

Lemma rstrip_head s c :
  head (rstrip s) = Some c → head s = Some c.
Proof.
  destruct (rstrip_split s) as [r [Hs _]]. intros H.
  rewrite Hs, head_app. by rewrite H.
Qed.

Lemma strip_split s :
  ∃ l r, s = l ++ strip s ++ r ∧ all_space l ∧ all_space r.
Proof.
  destruct (lstrip_split s) as [l [Hs Hl]].
  destruct (rstrip_split (lstrip s)) as [r [Ht Hr]].
  exists l, r. split; [| done]. unfold strip. by rewrite <- Ht.
Qed.

Lemma strip_head s c : head (strip s) = Some c → isspace c = false.
Proof. intros H. apply (lstrip_head s), rstrip_head, H. Qed.

Lemma strip_last s c : last (strip s) = Some c → isspace c = false.
Proof. apply rstrip_last. Qed.

Lemma strip_id s :
  (∀ c, head s = Some c → isspace c = false) →
  (∀ c, last s = Some c → isspace c = false) →
  strip s = s.
Proof. intros Hh Hl. unfold strip. rewrite lstrip_id; [by apply rstrip_id | done]. Qed.

Lemma strip_idemp s : strip (strip s) = strip s.
Proof. apply strip_id; [apply strip_head | apply strip_last]. Qed.

Lemma startswith_spec s prefix :
  startswith s prefix = true ↔ ∃ post, s = prefix ++ post.
Proof.
  revert s. induction prefix as [|p prefix IH]; intros s; simpl.
  - split; [intros _; by exists s | done].
  - destruct s as [|c s]; simpl.
    + split; [done | by intros [post ?]].
    + rewrite andb_true_iff, bool_decide_eq_true, IH. split.
      * intros [-> [post ->]]. by exists post.
      * intros [post [= -> ->]]. split; [done | by exists post].
Qed.

Lemma contains_spec needle s :
  contains needle s = true ↔ ∃ pre post, s = pre ++ needle ++ post.
Proof.
  induction s as [|c s IH]; simpl.
  - rewrite orb_false_r, startswith_spec. split.
    + intros [post H]. by exists [], post.
    + intros [pre [post H]]. symmetry in H.
      apply app_eq_nil in H as [-> H]. by exists post.
  - rewrite orb_true_iff, startswith_spec, IH. split.
    + intros [[post H] | [pre [post H]]].
      * by exists [], post.
      * exists (c :: pre), post. by rewrite H.
    + intros [[|a pre] [post H]].
      * left. by exists post.
      * right. injection H as -> ->. by exists pre, post.
Qed.

(** ** The aggregation loops of [get_viet_info_from_synset] *)

Lemma definitions_loop_from (pre suf : list (option str)) (acc : str) :
  foldl (λ definitions i,
           match (pre ++ suf) !! i with
           | Some d => definitions ++ str_of_nat (i + 1) ++ py ". " ++ format_value d ++ py " | "
           | None => definitions
           end)
        acc (seq (length pre) (length suf))
  = acc ++ numbered_from (S (length pre)) (format_value <$> suf).
Proof.
  revert pre acc. induction suf as [|d suf IH]; intros pre acc.
  - cbn. by rewrite app_nil_r.
  - cbn [length seq foldl fmap list_fmap numbered_from].
    rewrite list_lookup_middle by done.
    specialize (IH (pre ++ [d])). rewrite <- app_assoc in IH. cbn in IH.
    rewrite length_app in IH. cbn in IH.
    rewrite Nat.add_1_r in IH |- *. rewrite IH.
    by rewrite <- !app_assoc.
Qed.

Lemma definitions_loop_numbered (definitions_list : list (option str)) :
  definitions_loop definitions_list = numbered (format_value <$> definitions_list).
Proof. apply (definitions_loop_from [] definitions_list []). Qed.

Lemma examples_loop_from (pre suf : list (option str)) (acc : str) (k : nat) :
  foldl (λ '(examples, ex_count) i,
           match (pre ++ suf) !! i with
           | Some (Some e) =>
               (examples ++ str_of_nat (ex_count + 1) ++ py ". " ++ e ++ py " | ",
                ex_count + 1)
           | _ => (examples, ex_count)
           end)
        (acc, k) (seq (length pre) (length suf))
  = (acc ++ numbered_from (S k) (omap id suf), k + length (omap id suf)).
Proof.
  revert pre acc k. induction suf as [|e suf IH]; intros pre acc k.
  - cbn. by rewrite app_nil_r, Nat.add_0_r.
  - cbn [length seq foldl].
    rewrite list_lookup_middle by done.
    specialize (IH (pre ++ [e])). rewrite <- app_assoc in IH. cbn in IH.
    rewrite length_app in IH. cbn in IH. rewrite Nat.add_1_r in IH.
    destruct e as [e|]; cbn.
    + rewrite IH, !Nat.add_1_r. f_equal; [by rewrite <- !app_assoc | lia].
    + by rewrite IH.
Qed.

Lemma examples_loop_numbered (examples_list : list (option str)) :
  (examples_loop examples_list).1 = numbered (omap id examples_list).
Proof. exact (f_equal fst (examples_loop_from [] examples_list [] 0)). Qed.

Lemma examples_loop_count (examples_list : list (option str)) :
  (examples_loop examples_list).2 = length (omap id examples_list).
Proof. exact (f_equal snd (examples_loop_from [] examples_list [] 0)). Qed.

Lemma omap_id_fmap {A B} (f : A → option B) (l : list A) :
  omap id (f <$> l) = omap f l.
Proof.
  induction l as [|x l IH]; [done |].
  rewrite fmap_cons. cbn. rewrite IH. by destruct (f x).
Qed.

(** ** [get_viet_info_from_synset]: what a call returns *)

Lemma get_viet_info_unavailable synset_id db_path w :
  files w !! db_path = None →
  get_viet_info_from_synset synset_id db_path w
  = (inl (DatabaseError db_path "VIETNET_DATA"),
     log (ReadSql db_path "VIETNET_DATA") w).
Proof.
  intros Hf. unfold get_viet_info_from_synset, mbind, M_bind, read_sql_query.
  by rewrite Hf.
Qed.

Lemma get_viet_info_no_row synset_id db_path w db :
  files w !! db_path = Some db →
  annotation_rows db synset_id = [] →
  get_viet_info_from_synset synset_id db_path w
  = (inr {[ "viet_word" := PyNone;
            "viet_definition" := PyNone;
            "viet_example" := PyNone ]},
     log (ReadSql db_path "VIETNET_DATA") w).
Proof.
  intros Hf Hrows. unfold get_viet_info_from_synset, mbind, M_bind, read_sql_query.
  rewrite Hf. fold (annotation_rows db synset_id). by rewrite Hrows.
Qed.

Lemma get_viet_info_rows synset_id db_path w db :
  files w !! db_path = Some db →
  annotation_rows db synset_id ≠ [] →
  get_viet_info_from_synset synset_id db_path w
  = (inr {[ "viet_word" :=
              PyStr (join (py ", ") (viet_word <$> annotation_rows db synset_id));
            "viet_definition" :=
              PyStr (spec_definitions (annotation_rows db synset_id));
            "viet_example" :=
              PyStr (spec_examples (annotation_rows db synset_id)) ]},
     log (ReadSql db_path "VIETNET_DATA") w).
Proof.
  intros Hf Hrows. unfold get_viet_info_from_synset, mbind, M_bind, read_sql_query.
  rewrite Hf. fold (annotation_rows db synset_id).
  rewrite (bool_decide_eq_false_2 _ Hrows). cbn [negb].
  rewrite bool_decide_eq_false_2
    by (destruct (annotation_rows db synset_id); [done | by rewrite fmap_cons]).
  rewrite definitions_loop_numbered, examples_loop_numbered, omap_id_fmap.
  unfold spec_definitions, spec_examples. by rewrite <- list_fmap_compose.
Qed.

(** The outcome of a lookup is a function of the files alone, and a lookup
    leaves the files as they were. *)
Lemma get_viet_info_frame synset_id db_path w :
  (get_viet_info_from_synset synset_id db_path w).1
  = (get_viet_info_from_synset synset_id db_path
       {| files := files w; trace := [] |}).1
  ∧ files (get_viet_info_from_synset synset_id db_path w).2 = files w.
Proof.
  unfold get_viet_info_from_synset, mbind, M_bind, read_sql_query. cbn [files].
  destruct (files w !! db_path) as [db|]; [| done].
  by destruct (negb _).
Qed.

(** C1: for an identifier with at least one annotation row, the definition
    string numbers every row from 1 in store order, a NULL definition
    taking its number too, and the example string numbers the rows that
    have an example with a counter of their own; two rows with definitions
    A and B and examples NULL and ex1 give ["1. A | 2. B | "] and
    ["1. ex1 | "]. *)
Theorem annotation_numbering (synset_id db_path : str) (w : world) (db : Database) :
  files w !! db_path = Some db →
  annotation_rows db synset_id ≠ [] →
  ∃ record : gmap string pyval,
    (get_viet_info_from_synset synset_id db_path w).1 = inr record
    ∧ record !! "viet_definition"
      = Some (PyStr (spec_definitions (annotation_rows db synset_id)))
    ∧ record !! "viet_example"
      = Some (PyStr (spec_examples (annotation_rows db synset_id)))
    ∧ (∀ r1 r2 d,
         annotation_rows db synset_id = [r1; r2] →
         viet_definition r1 = None → viet_definition r2 = Some d →
         record !! "viet_definition"
         = Some (PyStr (py "1. None | 2. " ++ d ++ py " | ")))
    ∧ (∀ r1 r2,
         annotation_rows db synset_id = [r1; r2] →
         viet_definition r1 = Some (py "A") → viet_definition r2 = Some (py "B") →
         viet_example r1 = None → viet_example r2 = Some (py "ex1") →
         record !! "viet_definition" = Some (PyStr (py "1. A | 2. B | "))
         ∧ record !! "viet_example" = Some (PyStr (py "1. ex1 | "))).
Proof.
  intros Hf Hrows. eexists. rewrite (get_viet_info_rows _ _ _ _ Hf Hrows).
  split; [done |]. split; [by simplify_map_eq |]. split; [by simplify_map_eq |].
  split.
  - intros r1 r2 d -> H1 H2. simplify_map_eq.
    unfold spec_definitions. cbn. by rewrite H1, H2.
  - intros r1 r2 -> H1 H2 H3 H4. simplify_map_eq. split.
    + unfold spec_definitions. cbn. by rewrite H1, H2.
    + unfold spec_examples. cbn. by rewrite H3, H4.
Qed.

Lemma annotation_numbering_witness :
  ∃ record : gmap string pyval,
    (get_viet_info_from_synset (py "oewn-1-n") (py "db") demo_world).1 = inr record
    ∧ record !! "viet_definition" = Some (PyStr (py "1. A | 2. B | "))
    ∧ record !! "viet_example" = Some (PyStr (py "1. ex1 | ")).
Proof.
  assert (files demo_world !! py "db" = Some demo_db) as Hf by reflexivity.
  assert (annotation_rows demo_db (py "oewn-1-n") ≠ []) as Hrows
    by (vm_compute; discriminate).
  destruct (annotation_numbering (py "oewn-1-n") (py "db") demo_world demo_db
              Hf Hrows) as (record & Hrec & _ & _ & _ & Hex).
  exists record. split; [exact Hrec |].
  eapply Hex; reflexivity.
Defined.

(** C7: when the annotation table has no row for the identifier, the
    lookup returns normally, with a record whose fields are all [None]. *)
Theorem annotation_absent (synset_id db_path : str) (w : world) (db : Database) :
  files w !! db_path = Some db →
  annotation_rows db synset_id = [] →
  ∃ record : gmap string pyval,
    (get_viet_info_from_synset synset_id db_path w).1 = inr record
    ∧ record !! "viet_word" = Some PyNone
    ∧ record !! "viet_definition" = Some PyNone
    ∧ record !! "viet_example" = Some PyNone
    ∧ ∀ key v, record !! key = Some v → v = PyNone.
Proof.
  intros Hf Hrows. eexists. rewrite (get_viet_info_no_row _ _ _ _ Hf Hrows).
  split; [done |]. do 3 (split; [by simplify_map_eq |]).
  intros key v. rewrite !lookup_insert_Some, lookup_singleton_Some.
  by intros [[_ <-]|[_ [[_ <-]|[_ [_ <-]]]]].
Qed.

Lemma annotation_absent_witness :
  ∃ record : gmap string pyval,
    (get_viet_info_from_synset (py "oewn-9-n") (py "db") demo_world).1 = inr record
    ∧ record !! "viet_word" = Some PyNone
    ∧ record !! "viet_definition" = Some PyNone
    ∧ record !! "viet_example" = Some PyNone
    ∧ ∀ key v, record !! key = Some v → v = PyNone.
Proof.
  apply (annotation_absent (py "oewn-9-n") (py "db") demo_world demo_db);
    reflexivity.
Defined.

(** C9: a lookup repeated with the same identifier and path returns the
    same outcome; lookups, of this or of any other identifier, leave the
    files of the store as they were. *)
Theorem annotation_lookup_repeatable (synset_id db_path : str) (w : world) :
  let first := get_viet_info_from_synset synset_id db_path w in
  let second := get_viet_info_from_synset synset_id db_path first.2 in
  second.1 = first.1
  ∧ files first.2 = files w
  ∧ files second.2 = files w
  ∧ ∀ other_id other_path,
      (get_viet_info_from_synset synset_id db_path
         (get_viet_info_from_synset other_id other_path w).2).1 = first.1.
Proof.
  cbn zeta.
  assert (∀ w1 w2, files w1 = files w2 →
            (get_viet_info_from_synset synset_id db_path w1).1
            = (get_viet_info_from_synset synset_id db_path w2).1) as Hdep.
  { intros w1 w2 Heq.
    rewrite (proj1 (get_viet_info_frame synset_id db_path w1)).
    rewrite (proj1 (get_viet_info_frame synset_id db_path w2)).
    by rewrite Heq. }
  split; [apply Hdep, get_viet_info_frame |].
  split; [apply get_viet_info_frame |].
  split.
  - rewrite (proj2 (get_viet_info_frame _ _ _)). apply get_viet_info_frame.
  - intros other_id other_path. apply Hdep, get_viet_info_frame.
Qed.

(** ** [Node.__init__] *)

(** C2: no record returned by the lookup has the key [is_same], which the
    constructor of [Node] reads: every construction raises, with [KeyError]
    whenever the store could be read. *)
Theorem node_init_raises (lexicon : Wordnet) (synset : Synset) (folder_path : str)
    (recursive_level : nat) (w : world) :
  match (get_viet_info_from_synset (synset_id synset) folder_path w).1 with
  | inr record =>
      record !! "is_same" = None
      ∧ is_Some (record !! "viet_word")
      ∧ is_Some (record !! "viet_definition")
      ∧ is_Some (record !! "viet_example")
      ∧ (Node_init lexicon synset folder_path recursive_level w).1
        = inl (KeyError "is_same")
  | inl e => (Node_init lexicon synset folder_path recursive_level w).1 = inl e
  end.
Proof.
  unfold Node_init, Node_new, mbind, M_bind.
  destruct (files w !! folder_path) as [db|] eqn:Hf.
  - destruct (decide (annotation_rows db (synset_id synset) = [])) as [Hrows|Hrows].
    + rewrite (get_viet_info_no_row _ _ _ _ Hf Hrows). cbn.
      repeat split; by simplify_map_eq.
    + rewrite (get_viet_info_rows _ _ _ _ Hf Hrows). cbn.
      repeat split; by simplify_map_eq.
  - by rewrite (get_viet_info_unavailable _ _ _ Hf).
Qed.

Example node_init_demo :
  (Node_init demo_lexicon (mkSynset (py "oewn-1-n")) (py "db") 0 demo_world).1
  = inl (KeyError "is_same").
Proof. vm_compute. reflexivity. Qed.

(** ** Sorting by a key *)

Section SortBy.
Context {A : Type} (key : A → Qc).

Lemma insert_by_perm x l : insert_by key x l ≡ₚ x :: l.
Proof.
  induction l as [|y l IH]; cbn; [done |].
  case_bool_decide; [done |].
  rewrite IH. apply Permutation_swap.
Qed.

Lemma sort_by_perm l : sort_by key l ≡ₚ l.
Proof.
  induction l as [|x l IH]; cbn; [done |].
  fold (sort_by key l). by rewrite insert_by_perm, IH.
Qed.

Lemma insert_by_sorted x l :
  StronglySorted (λ a b, key a ≤ key b)%Qc l →
  StronglySorted (λ a b, key a ≤ key b)%Qc (insert_by key x l).
Proof.
  induction 1 as [|y l Hl IH Hy]; cbn.
  - repeat constructor.
  - case_bool_decide as Hxy.
    + constructor; [by constructor |].
      constructor; [done |].
      eapply Forall_impl; [exact Hy |].
      intros z Hz. by eapply Qcle_trans.
    + constructor; [done |].
      rewrite insert_by_perm. constructor; [| done].
      apply Qclt_le_weak, Qcnot_le_lt, Hxy.
Qed.

Lemma sort_by_sorted l :
  StronglySorted (λ a b, key a ≤ key b)%Qc (sort_by key l).
Proof.
  induction l as [|x l IH]; cbn; [constructor |].
  by apply insert_by_sorted.
Qed.
End SortBy.

Lemma StronglySorted_impl {A} (R1 R2 : relation A) (l : list A) :
  (∀ a b, R1 a b → R2 a b) → StronglySorted R1 l → StronglySorted R2 l.
Proof.
  intros HR. induction 1 as [|x l Hl IH Hx]; constructor; [done |].
  eapply Forall_impl; [exact Hx |]. intros y. apply HR.
Qed.

Lemma StronglySorted_take {A} (R : relation A) (l : list A) (n : nat) :
  StronglySorted R l → StronglySorted R (take n l).
Proof.
  intros Hl. rewrite <- (take_drop n l) in Hl.
  by apply StronglySorted_app_1_l in Hl.
Qed.

Lemma StronglySorted_take_drop {A} (R : relation A) (l : list A) (n : nat) a b :
  StronglySorted R l → a ∈ take n l → b ∈ drop n l → R a b.
Proof.
  intros Hl. rewrite <- (take_drop n l) in Hl.
  by apply StronglySorted_app_1_elem_of.
Qed.

(** ** Collecting loops *)

Lemma foldl_collect {A B} (P : A → Prop) `{!∀ x, Decision (P x)} (f : A → B)
    (l : list A) (acc : list B) :
  foldl (λ results row,
           if bool_decide (P row) then results ++ [f row] else results) acc l
  = acc ++ (f <$> filter P l).
Proof.
  revert acc. induction l as [|x l IH]; intros acc; cbn [foldl].
  - by rewrite filter_nil, fmap_nil, app_nil_r.
  - rewrite IH, filter_cons. case_bool_decide.
    + rewrite decide_True by done. by rewrite fmap_cons, <- app_assoc.
    + by rewrite decide_False by done.
Qed.

(** ** The resolver *)

Lemma files_log_all es w : files (log_all es w) = files w.
Proof.
  revert w. induction es as [|e es IH]; intros w; [done |].
  change (log_all (e :: es) w) with (log_all es (log e w)). by rewrite IH.
Qed.

Lemma trace_log_all es w : trace (log_all es w) = trace w ++ es.
Proof.
  revert w. induction es as [|e es IH]; intros w.
  - cbn. by rewrite app_nil_r.
  - change (log_all (e :: es) w) with (log_all es (log e w)).
    rewrite IH. cbn. by rewrite <- app_assoc.
Qed.

(** The provider knows the identifiers [ids]: they are those of [synsets]. *)
Lemma mapM_lexicon_synset (lexicon : Wordnet) (ids : list str)
    (synsets : list Synset) (w : world) :
  Forall2 (λ ssid synset, wn_synset lexicon ssid = Some synset) ids synsets →
  mapM (lexicon_synset lexicon) ids w
  = (inr (PySynset <$> synsets), log_all (WnSynset <$> ids) w).
Proof.
  intros Hknown. revert w.
  induction Hknown as [|ssid synset ids synsets Hs _ IH]; intros w; [done |].
  cbn. unfold mbind, M_bind, lexicon_synset at 1. rewrite Hs.
  by rewrite IH.
Qed.

(** The lookups stop at the first identifier the provider does not know. *)
Lemma mapM_lexicon_synset_unknown (lexicon : Wordnet) (known : list str)
    (synsets : list Synset) (unknown : str) (rest : list str) (w : world) :
  Forall2 (λ ssid synset, wn_synset lexicon ssid = Some synset) known synsets →
  wn_synset lexicon unknown = None →
  mapM (lexicon_synset lexicon) (known ++ unknown :: rest) w
  = (inl (WnError unknown), log_all (WnSynset <$> known ++ [unknown]) w).
Proof.
  intros Hknown Hunknown. revert w.
  induction Hknown as [|ssid synset ids synsets Hs _ IH]; intros w.
  - cbn. unfold mbind, M_bind, lexicon_synset at 1. by rewrite Hunknown.
  - cbn. unfold mbind, M_bind, lexicon_synset at 1. rewrite Hs.
    cbn in IH. unfold mbind, M_bind in IH. by rewrite IH.
Qed.

Lemma known_or_first_unknown (lexicon : Wordnet) (ids : list str) :
  (∃ synsets,
     Forall2 (λ ssid synset, wn_synset lexicon ssid = Some synset) ids synsets)
  ∨ (∃ known synsets unknown rest,
       ids = known ++ unknown :: rest
       ∧ Forall2 (λ ssid synset, wn_synset lexicon ssid = Some synset) known synsets
       ∧ wn_synset lexicon unknown = None).
Proof.
  induction ids as [|ssid ids IH].
  - left. exists []. constructor.
  - destruct (wn_synset lexicon ssid) as [synset|] eqn:Hs.
    + destruct IH as [[synsets Hall]|(known & synsets & unknown & rest & -> & Hall & Hu)].
      * left. exists (synset :: synsets). by constructor.
      * right. exists (ssid :: known), (synset :: synsets), unknown, rest.
        split; [done |]. split; [by constructor | done].
    + right. exists [], [], ssid, ids. split; [done |]. split; [constructor | done].
Qed.

Section SearchProperties.
Variable lower : str → str.
Variable ratio : str → str → Qc.

Lemma exact_search_run user_input db_path w db :
  files w !! db_path = Some db →
  exact_search_vietnet_search lower user_input db_path w
  = (inr (exact_matches lower db user_input),
     log (ReadSql db_path "VIETNET_EXACT_SEARCH") w).
Proof.
  intros Hf. unfold exact_search_vietnet_search, mbind, M_bind, read_sql_query.
  rewrite Hf. cbn zeta. unfold mret, M_ret. f_equal. f_equal.
  exact (foldl_collect
           (λ row, normalize lower user_input = normalize lower (exact_tieng row))
           exact_synset_id (VIETNET_EXACT_SEARCH db) []).
Qed.

Lemma search_function_identifier user_input lexicon db_path w :
  contains (py "oewn-") user_input = true →
  search_function lower ratio user_input lexicon db_path w
  = (match wn_synset lexicon (strip user_input) with
     | Some _ => inr ([PyStr (strip user_input)], PyNone)
     | None => inl (WnError (strip user_input))
     end,
     log (WnSynset (strip user_input)) w).
Proof.
  intros Hc. unfold search_function. rewrite Hc.
  unfold mbind, M_bind, lexicon_synset.
  by destruct (wn_synset lexicon (strip user_input)).
Qed.

(** C3: on the identifier path, an identifier the provider knows gives
    back exactly that identifier, trimmed, and no message.  For one it does
    not know the lookup raises [wn.Error]: the branch that builds the message
    naming the identifier is never reached, and no call on this path returns
    a message. *)
Theorem resolve_identifier (user_input : str) (lexicon : Wordnet)
    (db_path : str) (w : world) :
  contains (py "oewn-") user_input = true →
  let ssid := strip user_input in
  let run := search_function lower ratio user_input lexicon db_path w in
  (is_Some (wn_synset lexicon ssid) → run.1 = inr ([PyStr ssid], PyNone))
  ∧ (wn_synset lexicon ssid = None → run.1 = inl (WnError ssid))
  ∧ (∀ candidates text, run.1 ≠ inr (candidates, PyStr text))
  ∧ run.1 ≠ inr ([], PyStr (py "Synset_ID " ++ ssid ++ py " không tồn tại")).
Proof.
  intros Hc ssid run. subst run. rewrite (search_function_identifier _ _ _ _ Hc).
  subst ssid. cbn [fst]. repeat split.
  - by intros [s ->].
  - by intros ->.
  - intros candidates text. by destruct (wn_synset lexicon (strip user_input)).
  - by destruct (wn_synset lexicon (strip user_input)).
Qed.

(** C10: an input holding the marker anywhere is looked up as an
    identifier, trimmed; the provider's identifier lookup is the only
    call made, no table of the store is read and the lemma lookup is not
    asked, so the outcome is that identifier or the error of the provider
    for an identifier it does not know, never suggestions, whatever the
    store holds. *)
Theorem marker_anywhere_skips_matchers (pre post : str) (lexicon : Wordnet)
    (db_path : str) (w : world) :
  let user_input := pre ++ py "oewn-" ++ post in
  let run := search_function lower ratio user_input lexicon db_path w in
  contains (py "oewn-") user_input = true
  ∧ run.2 = log (WnSynset (strip user_input)) w
  ∧ trace run.2 = trace w ++ [WnSynset (strip user_input)]
  ∧ ((is_Some (wn_synset lexicon (strip user_input))
      ∧ run.1 = inr ([PyStr (strip user_input)], PyNone))
     ∨ (wn_synset lexicon (strip user_input) = None
        ∧ run.1 = inl (WnError (strip user_input))))
  ∧ (∀ candidates text, run.1 ≠ inr (candidates, PyStr text))
  ∧ ∀ other_path other_world,
      (search_function lower ratio user_input lexicon other_path other_world).1 = run.1.
Proof.
  intros user_input run.
  assert (contains (py "oewn-") user_input = true) as Hc
    by (apply contains_spec; by exists pre, post).
  subst run. rewrite (search_function_identifier _ _ _ _ Hc).
  split; [done |]. split; [done |]. split; [done |]. cbn [fst]. split; [| split].
  - destruct (wn_synset lexicon (strip user_input)) eqn:Hs;
      [left; split; [by eexists | done] | by right].
  - intros candidates text. by destruct (wn_synset lexicon (strip user_input)).
  - intros other_path other_world.
    by rewrite (search_function_identifier _ _ _ _ Hc).
Qed.

Lemma fuzzy_search_run user_input db_path threshold w db :
  files w !! db_path = Some db →
  fuzzy_search_vietnet_search lower ratio user_input db_path threshold w
  = (inr ((fuzzy_scored lower ratio db user_input threshold).*1),
     log (ReadSql db_path "VIETNET_FUZZ_SEARCH") w).
Proof.
  intros Hf. unfold fuzzy_search_vietnet_search, mbind, M_bind, read_sql_query.
  rewrite Hf. cbn zeta. unfold mret, M_ret, fuzzy_scored, list_of_set. do 4 f_equal.
  f_equal.
  exact (foldl_collect
           (λ row, (threshold ≤ ratio (normalize lower user_input)
                                      (normalize lower (fuzz_tieng row)))%Qc)
           (λ row, (fuzz_word row,
                    ratio (normalize lower user_input)
                          (normalize lower (fuzz_tieng row))))
           (VIETNET_FUZZ_SEARCH db) []).
Qed.

(** The free-text path, once the store has been read, when the provider
    knows every identifier the exact matcher found. *)
Lemma search_function_free_text_run user_input lexicon db_path w db synsets :
  contains (py "oewn-") user_input = false →
  files w !! db_path = Some db →
  Forall2 (λ ssid synset, wn_synset lexicon ssid = Some synset)
    (exact_matches lower db user_input) synsets →
  search_function lower ratio user_input lexicon db_path w
  = let asked :=
      log (WnSynsets user_input "n")
        (log_all (WnSynset <$> exact_matches lower db user_input)
           (log (ReadSql db_path "VIETNET_EXACT_SEARCH") w)) in
    let result := (PySynset <$> synsets)
                  ++ (PySynset <$> wn_synsets lexicon user_input "n") in
    if bool_decide (result = []) then
      (inr ([], PyStr (py "Bạn hãy thử tìm các từ sau: "
                       ++ join (py " | ")
                            (take 5 (fuzzy_scored lower ratio db user_input
                                       default_threshold).*1))),
       log (ReadSql db_path "VIETNET_FUZZ_SEARCH") asked)
    else (inr (remove_dups result, PyNone), asked).
Proof.
  intros Hc Hf Hknown. unfold search_function, list_of_set. rewrite Hc.
  unfold mbind at 1, M_bind at 1.
  rewrite (exact_search_run _ _ _ _ Hf).
  unfold mbind at 1, M_bind at 1. rewrite (mapM_lexicon_synset _ _ _ _ Hknown).
  unfold mbind at 1, M_bind at 1. unfold lexicon_synsets. cbn zeta.
  case_bool_decide; [| done].
  unfold mbind, M_bind. erewrite fuzzy_search_run; [done |].
  cbn. by rewrite files_log_all.
Qed.

Lemma search_function_free_text user_input lexicon db_path w db synsets :
  contains (py "oewn-") user_input = false →
  files w !! db_path = Some db →
  Forall2 (λ ssid synset, wn_synset lexicon ssid = Some synset)
    (exact_matches lower db user_input) synsets →
  let viet := PySynset <$> synsets in
  let eng := PySynset <$> wn_synsets lexicon user_input "n" in
  (search_function lower ratio user_input lexicon db_path w).1
  = inr (if bool_decide (viet ++ eng = []) then
           ([], PyStr (py "Bạn hãy thử tìm các từ sau: "
                       ++ join (py " | ")
                            (take 5 (fuzzy_scored lower ratio db user_input
                                       default_threshold).*1)))
         else (remove_dups (viet ++ eng), PyNone)).
Proof.
  intros Hc Hf Hknown viet eng.
  rewrite (search_function_free_text_run _ _ _ _ _ _ Hc Hf Hknown). cbn zeta.
  fold viet eng. by case_bool_decide.
Qed.

(** The free-text path when the exact matcher found an identifier the
    provider does not know: the lookup of that identifier raises. *)
Lemma search_function_free_text_unknown user_input lexicon db_path w db
    known synsets unknown rest :
  contains (py "oewn-") user_input = false →
  files w !! db_path = Some db →
  exact_matches lower db user_input = known ++ unknown :: rest →
  Forall2 (λ ssid synset, wn_synset lexicon ssid = Some synset) known synsets →
  wn_synset lexicon unknown = None →
  search_function lower ratio user_input lexicon db_path w
  = (inl (WnError unknown),
     log_all (WnSynset <$> known ++ [unknown])
       (log (ReadSql db_path "VIETNET_EXACT_SEARCH") w)).
Proof.
  intros Hc Hf Hsplit Hknown Hunknown. unfold search_function. rewrite Hc.
  unfold mbind at 1, M_bind at 1.
  rewrite (exact_search_run _ _ _ _ Hf), Hsplit.
  unfold mbind at 1, M_bind at 1.
  by rewrite (mapM_lexicon_synset_unknown _ _ _ _ _ _ Hknown Hunknown).
Qed.

(** A call that returns no message returns at least one candidate. *)
Lemma search_function_resolved_nonempty user_input lexicon db_path w candidates :
  (search_function lower ratio user_input lexicon db_path w).1
  = inr (candidates, PyNone) →
  candidates ≠ [].
Proof.
  destruct (contains (py "oewn-") user_input) eqn:Hc.
  - rewrite (search_function_identifier _ _ _ _ Hc). cbn.
    destruct (wn_synset lexicon (strip user_input)); intros [= <-]. done.
  - destruct (files w !! db_path) as [db|] eqn:Hf.
    + destruct (known_or_first_unknown lexicon (exact_matches lower db user_input))
        as [[synsets Hknown]|(known & synsets & unknown & rest & Hsplit & Hknown & Hu)].
      * rewrite (search_function_free_text _ _ _ _ _ _ Hc Hf Hknown).
        case_bool_decide as Hres; [done |]. intros [= <-].
        intros Hnil. apply Hres.
        destruct (_ ++ _) as [|x result]; [done |].
        assert (x ∈ remove_dups (x :: result)) as Hx
          by (apply elem_of_remove_dups; left).
        rewrite Hnil in Hx. by apply elem_of_nil in Hx.
      * by rewrite (search_function_free_text_unknown _ _ _ _ _ _ _ _ _
                      Hc Hf Hsplit Hknown Hu).
    + unfold search_function. rewrite Hc.
      unfold mbind, M_bind, exact_search_vietnet_search, read_sql_query.
      unfold mbind, M_bind. by rewrite Hf.
Qed.

(** What holds of a free-text query with a hit of the exact matcher or of
    the lemma lookup when the provider knows every identifier the exact
    matcher found: no message, and a candidate list that is not empty, has
    no element twice and holds exactly what the two paths found; and no call
    at all returns an empty candidate list without a message. *)
Theorem resolve_free_text (user_input : str) (lexicon : Wordnet)
    (db_path : str) (w : world) (db : Database) (synsets : list Synset) :
  contains (py "oewn-") user_input = false →
  files w !! db_path = Some db →
  Forall2 (λ ssid synset, wn_synset lexicon ssid = Some synset)
    (exact_matches lower db user_input) synsets →
  exact_matches lower db user_input ≠ [] ∨ wn_synsets lexicon user_input "n" ≠ [] →
  (∃ candidates : list pyval,
     (search_function lower ratio user_input lexicon db_path w).1
     = inr (candidates, PyNone)
     ∧ candidates ≠ []
     ∧ NoDup candidates
     ∧ ∀ x, x ∈ candidates ↔
         (∃ synset, synset ∈ synsets ∧ x = PySynset synset)
         ∨ (∃ synset, synset ∈ wn_synsets lexicon user_input "n"
                      ∧ x = PySynset synset))
  ∧ ∀ other_input other_lexicon other_path other_world candidates,
      (search_function lower ratio other_input other_lexicon other_path
         other_world).1 = inr (candidates, PyNone) →
      candidates ≠ [].
Proof.
  intros Hc Hf Hknown Hhit. split; [| apply search_function_resolved_nonempty].
  pose proof (search_function_free_text _ lexicon _ _ _ _ Hc Hf Hknown) as Hrun.
  cbn zeta in Hrun. rewrite bool_decide_eq_false_2 in Hrun.
  - eexists. split; [exact Hrun |]. split.
    + eapply search_function_resolved_nonempty, Hrun.
    + split; [apply NoDup_remove_dups |].
      intros x. rewrite elem_of_remove_dups, elem_of_app, !list_elem_of_fmap.
      split.
      * intros [[y [-> Hy]]|[y [-> Hy]]]; [left | right]; by exists y.
      * intros [[y [Hy ->]]|[y [Hy ->]]]; [left | right]; by exists y.
  - intros [Hv He]%app_eq_nil.
    apply fmap_nil_inv in Hv. apply fmap_nil_inv in He.
    subst synsets. apply Forall2_nil_inv_r in Hknown.
    by destruct Hhit.
Qed.

(** C4: a free-text query can have hits on both paths and still not be
    resolved: when the exact matcher returns an identifier the provider does
    not know, the lookup of that identifier raises [wn.Error], after the
    lookups of the identifiers before it and before the lemma lookup is
    asked, whatever that lookup would have found. *)
Theorem free_text_unknown_identifier (user_input : str) (lexicon : Wordnet)
    (db_path : str) (w : world) (db : Database) (known : list str)
    (synsets : list Synset) (unknown : str) (rest : list str) :
  contains (py "oewn-") user_input = false →
  files w !! db_path = Some db →
  exact_matches lower db user_input = known ++ unknown :: rest →
  Forall2 (λ ssid synset, wn_synset lexicon ssid = Some synset) known synsets →
  wn_synset lexicon unknown = None →
  let run := search_function lower ratio user_input lexicon db_path w in
  run.1 = inl (WnError unknown)
  ∧ trace run.2
    = trace w ++ [ReadSql db_path "VIETNET_EXACT_SEARCH"]
      ++ (WnSynset <$> known) ++ [WnSynset unknown]
  ∧ ∀ candidates message, run.1 ≠ inr (candidates, message).
Proof.
  intros Hc Hf Hsplit Hknown Hunknown run. subst run.
  rewrite (search_function_free_text_unknown _ _ _ _ _ _ _ _ _
             Hc Hf Hsplit Hknown Hunknown).
  split; [done |]. split; [| done].
  cbn [snd]. rewrite trace_log_all. cbn [log trace].
  by rewrite fmap_app, <- !app_assoc.
Qed.

Lemma fuzzy_scored_elem (db : Database) (query : str) (threshold : Qc) word score :
  (word, score) ∈ fuzzy_scored lower ratio db query threshold ↔
  ∃ row, row ∈ VIETNET_FUZZ_SEARCH db
         ∧ word = fuzz_word row
         ∧ score = ratio (normalize lower query) (normalize lower (fuzz_tieng row))
         ∧ (threshold ≤ score)%Qc.
Proof.
  unfold fuzzy_scored. rewrite sort_by_perm, elem_of_remove_dups, list_elem_of_fmap.
  split.
  - intros [row [[= -> ->] [Hth Hrow]%list_elem_of_filter]]. by exists row.
  - intros [row (Hrow & -> & -> & Hth)]. exists row. split; [done |].
    by apply list_elem_of_filter.
Qed.

Lemma fuzzy_scored_sorted (db : Database) (query : str) (threshold : Qc) :
  StronglySorted (λ a b, (b.2 ≤ a.2)%Qc)
    (fuzzy_scored lower ratio db query threshold).
Proof.
  unfold fuzzy_scored.
  eapply (StronglySorted_impl (λ a b : str * Qc, (- a.2 ≤ - b.2)%Qc));
    [| apply (sort_by_sorted (λ x : str * Qc, (- x.2)%Qc))].
  intros a b Hab. apply Qcopp_le_compat in Hab.
  by rewrite !Qcopp_involutive in Hab.
Qed.

(** C5: the fuzzy matcher returns the word labels of the rows whose
    source word scores at least the threshold against the normalized query,
    one per distinct (word, score) pair, by non-increasing score, and
    nothing when no row reaches the threshold; the resolver, which calls it
    with the default threshold 80, reports the first five of them, those of
    the highest scores. *)
Theorem fuzzy_suggestions (user_input : str) (lexicon : Wordnet)
    (db_path : str) (threshold : Qc) (w : world) (db : Database) :
  files w !! db_path = Some db →
  let query := normalize lower user_input in
  let scored := fuzzy_scored lower ratio db user_input threshold in
  (fuzzy_search_vietnet_search lower ratio user_input db_path threshold w).1
  = inr (scored.*1)
  ∧ (∀ word score,
       (word, score) ∈ scored ↔
       ∃ row, row ∈ VIETNET_FUZZ_SEARCH db
              ∧ word = fuzz_word row
              ∧ score = ratio query (normalize lower (fuzz_tieng row))
              ∧ (threshold ≤ score)%Qc)
  ∧ NoDup scored
  ∧ StronglySorted (λ a b, (b.2 ≤ a.2)%Qc) scored
  ∧ ((∀ row, row ∈ VIETNET_FUZZ_SEARCH db →
             ¬ (threshold ≤ ratio query (normalize lower (fuzz_tieng row)))%Qc) →
     scored = [])
  ∧ (threshold = default_threshold →
     default_threshold = Qc_of_Z 80 ∧
     (contains (py "oewn-") user_input = false →
      exact_matches lower db user_input = [] →
      wn_synsets lexicon user_input "n" = [] →
      let suggestions := take 5 (scored.*1) in
      (search_function lower ratio user_input lexicon db_path w).1
      = inr ([], PyStr (py "Bạn hãy thử tìm các từ sau: "
                        ++ join (py " | ") suggestions))
      ∧ length suggestions ≤ 5
      ∧ suggestions = (take 5 scored).*1
      ∧ StronglySorted (λ a b, (b.2 ≤ a.2)%Qc) (take 5 scored)
      ∧ ∀ a b, a ∈ take 5 scored → b ∈ drop 5 scored → (b.2 ≤ a.2)%Qc)).
Proof.
  intros Hf query scored.
  split; [by rewrite (fuzzy_search_run _ _ _ _ _ Hf) |].
  split; [apply fuzzy_scored_elem |].
  split.
  { subst scored. unfold fuzzy_scored. rewrite sort_by_perm.
    apply NoDup_remove_dups. }
  split; [apply fuzzy_scored_sorted |].
  split.
  { intros Hnone. destruct scored as [|[word score] rest] eqn:Hscored; [done |].
    assert ((word, score) ∈ scored) as Hin by (rewrite Hscored; left).
    apply fuzzy_scored_elem in Hin as [row (Hrow & _ & -> & Hth)].
    by destruct (Hnone row Hrow). }
  intros ->. split; [done |]. intros Hc Hexact Heng suggestions.
  split.
  { assert (Forall2 (λ ssid synset, wn_synset lexicon ssid = Some synset)
              (exact_matches lower db user_input) []) as Hknown
      by (rewrite Hexact; constructor).
    rewrite (search_function_free_text _ lexicon _ _ _ _ Hc Hf Hknown).
    by rewrite Heng. }
  split; [subst suggestions; rewrite length_take; lia |].
  split; [subst suggestions; by rewrite fmap_take |].
  split; [apply StronglySorted_take, fuzzy_scored_sorted |].
  intros a b Ha Hb.
  eapply (StronglySorted_take_drop (λ a b : str * Qc, (b.2 ≤ a.2)%Qc));
    [apply fuzzy_scored_sorted | exact Ha | exact Hb].
Qed.

End SearchProperties.

(** ** Witnesses and examples for the resolver *)

Lemma resolve_identifier_witness :
  (search_function lower_latin1 ratio_same (py " oewn-1-n ") demo_lexicon
     (py "db") demo_world).1 = inr ([PyStr (py "oewn-1-n")], PyNone)
  ∧ (search_function lower_latin1 ratio_same (py "oewn-7-n") demo_lexicon
       (py "db") demo_world).1
    = inl (WnError (py "oewn-7-n")).
Proof.
  split.
  - apply (resolve_identifier lower_latin1 ratio_same (py " oewn-1-n ")
             demo_lexicon (py "db") demo_world); [reflexivity |].
    eexists. reflexivity.
  - apply (resolve_identifier lower_latin1 ratio_same (py "oewn-7-n")
             demo_lexicon (py "db") demo_world); reflexivity.
Defined.

Lemma resolve_free_text_witness :
  ∃ candidates : list pyval,
    (search_function lower_latin1 ratio_same (py "DOG") demo_lexicon
       (py "db") demo_world).1 = inr (candidates, PyNone)
    ∧ candidates ≠ [] ∧ NoDup candidates.
Proof.
  destruct (resolve_free_text lower_latin1 ratio_same (py "DOG") demo_lexicon
              (py "db") demo_world demo_db [mkSynset (py "oewn-1-n")])
    as [(candidates & H1 & H2 & H3 & _) _].
  - reflexivity.
  - reflexivity.
  - vm_compute. repeat constructor.
  - left. vm_compute. discriminate.
  - by exists candidates.
Defined.

(** The lemma lookup has a hit for [dog] and so has the exact matcher, yet
    the call raises: the second row of the table names an identifier the
    lexicon does not know. *)
Lemma free_text_unknown_identifier_witness :
  wn_synsets demo_lexicon (py "dog") "n" ≠ []
  ∧ (search_function lower_latin1 ratio_same (py "dog") demo_lexicon
       (py "db") stale_world).1 = inl (WnError (py "oewn-0-n"))
  ∧ trace (search_function lower_latin1 ratio_same (py "dog") demo_lexicon
             (py "db") stale_world).2
    = [ReadSql (py "db") "VIETNET_EXACT_SEARCH"; WnSynset (py "oewn-1-n");
       WnSynset (py "oewn-0-n")].
Proof.
  split; [vm_compute; discriminate |].
  destruct (free_text_unknown_identifier lower_latin1 ratio_same (py "dog")
              demo_lexicon (py "db") stale_world stale_db [py "oewn-1-n"]
              [mkSynset (py "oewn-1-n")] (py "oewn-0-n") [])
    as (Hrun & Htrace & _).
  - reflexivity.
  - reflexivity.
  - reflexivity.
  - vm_compute. repeat constructor.
  - reflexivity.
  - split; [exact Hrun | exact Htrace].
Defined.

(** The two paths overlap on the query [dog]; one candidate is left. *)
Example resolve_overlap :
  (search_function lower_latin1 ratio_same (py "dog") demo_lexicon
     (py "db") demo_world).1
  = inr ([PySynset (mkSynset (py "oewn-1-n"))], PyNone).
Proof. vm_compute. reflexivity. Qed.

Lemma fuzzy_suggestions_witness :
  (fuzzy_search_vietnet_search lower_latin1 ratio_same (py " Con Mèo") (py "db")
     default_threshold demo_world).1 = inr [py "con mèo"]
  ∧ (search_function lower_latin1 ratio_same (py " Con Mèo") demo_lexicon
       (py "db") demo_world).1
    = inr ([], PyStr (py "Bạn hãy thử tìm các từ sau: con mèo")).
Proof.
  destruct (fuzzy_suggestions lower_latin1 ratio_same (py " Con Mèo") demo_lexicon
              (py "db") default_threshold demo_world demo_db eq_refl)
    as (Hrun & _ & _ & _ & _ & Hres).
  split; [exact Hrun |].
  destruct (Hres eq_refl) as [_ Hsearch].
  destruct Hsearch as [Hmsg _]; [reflexivity ..|].
  exact Hmsg.
Defined.

(** The matcher itself does not cut its list: six labels come back for six
    rows that clear the threshold. *)
Lemma fuzzy_search_returns_more_than_five :
  ∃ words : list str,
    (fuzzy_search_vietnet_search lower_latin1 ratio_same (py "con") (py "db")
       default_threshold crowded_world).1 = inr words
    ∧ ¬ length words ≤ 5.
Proof.
  exists [py "a"; py "b"; py "c"; py "d"; py "e"; py "f"].
  split; [vm_compute; reflexivity | cbn; lia].
Qed.

(** ** [normalize] *)

(** C8: [normalize] lower-cases, then trims: what it returns is the
    lower-cased text without its leading and trailing whitespace and with
    everything in between kept, so that two texts that differ by one inner
    space stay different and the exact matcher does not take one for the
    other. *)
Theorem normalize_lowercases_and_trims (lower : str → str) (text : str) :
  normalize lower text = strip (lower text)
  ∧ (∃ l r, lower text = l ++ normalize lower text ++ r
            ∧ all_space l ∧ all_space r)
  ∧ (∀ c, head (normalize lower text) = Some c → isspace c = false)
  ∧ (∀ c, last (normalize lower text) = Some c → isspace c = false)
  ∧ (lower (py "con  chó") = py "con  chó" →
     lower (py "con chó") = py "con chó" →
     normalize lower (py "con  chó") = py "con  chó"
     ∧ normalize lower (py "con chó") = py "con chó"
     ∧ normalize lower (py "con  chó") ≠ normalize lower (py "con chó")
     ∧ ∀ db_path w db ssid,
         files w !! db_path = Some db →
         VIETNET_EXACT_SEARCH db = [mkExactRow (py "con chó") ssid] →
         (exact_search_vietnet_search lower (py "con  chó") db_path w).1 = inr []
         ∧ (exact_search_vietnet_search lower (py "con chó") db_path w).1
           = inr [ssid]).
Proof.
  split; [done |].
  split; [apply strip_split |].
  split; [apply strip_head |].
  split; [apply strip_last |].
  intros H2 H1.
  assert (normalize lower (py "con  chó") = py "con  chó") as N2
    by (unfold normalize; by rewrite H2).
  assert (normalize lower (py "con chó") = py "con chó") as N1
    by (unfold normalize; by rewrite H1).
  split; [done |]. split; [done |].
  split; [by rewrite N1, N2 |].
  intros db_path w db ssid Hf Htable.
  rewrite !(exact_search_run _ _ _ _ _ Hf). unfold exact_matches.
  rewrite Htable, !filter_cons, filter_nil. cbn [exact_tieng].
  rewrite N1, N2. split.
  - by rewrite decide_False.
  - by rewrite decide_True.
Qed.

Lemma normalize_lowercases_and_trims_witness :
  normalize lower_latin1 (py " Con  CHÓ ") = py "con  chó"
  ∧ normalize lower_latin1 (py "con  chó") ≠ normalize lower_latin1 (py "con chó").
Proof.
  destruct (normalize_lowercases_and_trims lower_latin1 (py " Con  CHÓ "))
    as (Hn & _ & _ & _ & Hex).
  split.
  - rewrite Hn. reflexivity.
  - apply Hex; reflexivity.
Defined.

(** ** The tree builder *)

Lemma mapM_run_cons {A B} (f : A → M B) x l w :
  mapM f (x :: l) w
  = match f x w with
    | (inl e, w1) => (inl e, w1)
    | (inr y, w1) =>
      match mapM f l w1 with
      | (inl e, w2) => (inl e, w2)
      | (inr ys, w2) => (inr (y :: ys), w2)
      end
    end.
Proof.
  cbn. unfold mbind, M_bind.
  destruct (f x w) as [[e|y] w1]; [done |].
  by destruct (mapM f l w1) as [[e|ys] w2].
Qed.

Lemma mapM_run_inv {A B} (f : A → M B) l w ys w' :
  mapM f l w = (inr ys, w') →
  Forall2 (λ x y, ∃ w1 w2, f x w1 = (inr y, w2)) l ys.
Proof.
  revert w ys w'. induction l as [|x l IH]; intros w ys w'.
  - intros [= <- _]. constructor.
  - rewrite mapM_run_cons.
    destruct (f x w) as [[e|y] w1] eqn:Hx; [done |].
    destruct (mapM f l w1) as [[e|ys'] w2] eqn:Hl; [done |].
    intros [= <- _]. constructor; [by exists w, w1 | by eapply IH].
Qed.

Lemma mapM_run_total {A B} (f : A → M B) l :
  (∀ x w, ∃ y w', f x w = (inr y, w')) →
  ∀ w, ∃ ys w', mapM f l w = (inr ys, w').
Proof.
  intros Hf. induction l as [|x l IH]; intros w.
  - by exists [], w.
  - rewrite mapM_run_cons. destruct (Hf x w) as (y & w1 & ->).
    destruct (IH w1) as (ys & w2 & ->). by exists (y :: ys), w2.
Qed.

Section Builder.
Variable lookup : str → str → M (gmap string pyval).
Variable lexicon : Wordnet.
Variable folder_path : str.

Lemma Node_new_inv synset d w node w' :
  Node_new lookup lexicon folder_path synset d w = (inr node, w') →
  _synset node = synset ∧ _level node = d ∧ _children node = [].
Proof.
  unfold Node_new, mbind, M_bind, getitem.
  destruct (lookup (synset_id synset) folder_path w) as [[e|record] w1]; [done |].
  destruct (record !! "viet_word"); [| done]. cbn.
  destruct (record !! "viet_definition"); [| done]. cbn.
  destruct (record !! "viet_example"); [| done]. cbn.
  destruct (record !! "is_same"); [| done]. cbn.
  by intros [= <- _].
Qed.

Lemma Node_new_total synset d w :
  (∀ ssid w0, ∃ record w1,
      lookup ssid folder_path w0 = (inr record, w1)
      ∧ is_Some (record !! "viet_word")
      ∧ is_Some (record !! "viet_definition")
      ∧ is_Some (record !! "viet_example")
      ∧ is_Some (record !! "is_same")) →
  ∃ node w', Node_new lookup lexicon folder_path synset d w = (inr node, w').
Proof.
  intros Hl. unfold Node_new, mbind, M_bind, getitem.
  destruct (Hl (synset_id synset) w)
    as (record & w1 & -> & [? ->] & [? ->] & [? ->] & [? ->]).
  cbn. by eexists _, _.
Qed.

Lemma expand_run relation budget d synset w :
  expand lookup lexicon folder_path relation budget d synset w
  = match Node_new lookup lexicon folder_path synset d w with
    | (inl e, w1) => (inl e, w1)
    | (inr node, w1) =>
      match budget with
      | 0 => (inr node, w1)
      | S budget' =>
        match mapM (expand lookup lexicon folder_path relation budget' (S d))
                   (wn_relations lexicon synset relation) w1 with
        | (inl e, w2) => (inl e, w2)
        | (inr children, w2) => (inr (set_children node children), w2)
        end
      end
    end.
Proof.
  destruct budget as [|budget']; cbn [expand]; unfold mbind, M_bind;
    destruct (Node_new _ _ _ _ _ _) as [[e|node] w1]; done.
Qed.

Lemma expand_levels relation budget :
  ∀ d synset w node w',
    expand lookup lexicon folder_path relation budget d synset w = (inr node, w') →
    _synset node = synset
    ∧ _level node = d
    ∧ ∀ m, m ∈ subnodes node →
        d ≤ _level m ≤ d + budget
        ∧ ∀ c, c ∈ _children m → _level c = S (_level m).
Proof.
  induction budget as [|budget IH]; intros d synset w node w'; rewrite expand_run;
    destruct (Node_new _ _ _ _ _ _) as [[e|node0] w1] eqn:Hnode; try done;
    apply Node_new_inv in Hnode as (Hs & Hl & Hc).
  - intros [= <- _]. split; [done |]. split; [done |].
    intros m. destruct node0; cbn in *. subst. cbn.
    intros ->%list_elem_of_singleton. cbn. split; [lia |].
    by intros c ?%elem_of_nil.
  - destruct (mapM (M:=M) _ _ _) as [[e|children] w2] eqn:Hkids; [done |].
    intros [= <- _]. apply mapM_run_inv in Hkids.
    assert (Forall (λ c, _level c = S d
                         ∧ ∀ m, m ∈ subnodes c →
                             S d ≤ _level m ≤ S d + budget
                             ∧ ∀ c', c' ∈ _children m → _level c' = S (_level m))
                   children) as Hall.
    { clear -Hkids IH. induction Hkids as [|x c xs cs (w1 & w2 & Hx) _ IHk];
        constructor; [| done].
      by destruct (IH _ _ _ _ _ Hx) as (_ & ? & ?). }
    rewrite Forall_forall in Hall.
    split; [by destruct node0 |]. split; [by destruct node0 |].
    intros m. destruct node0; cbn in *. subst.
    intros [->|Hm]%elem_of_cons.
    + cbn. split; [lia |]. intros c Hc. by apply Hall.
    + apply list_elem_of_In, in_concat in Hm as (ms & Hms & Hm).
      apply in_map_iff in Hms as (c & <- & Hc).
      apply list_elem_of_In in Hm, Hc.
      destruct (Hall c Hc) as [_ Hsub].
      destruct (Hsub m Hm) as [? ?]. split; [lia | done].
Qed.

Lemma expand_total relation budget :
  (∀ ssid w0, ∃ record w1,
      lookup ssid folder_path w0 = (inr record, w1)
      ∧ is_Some (record !! "viet_word")
      ∧ is_Some (record !! "viet_definition")
      ∧ is_Some (record !! "viet_example")
      ∧ is_Some (record !! "is_same")) →
  ∀ d synset w,
    ∃ node w', expand lookup lexicon folder_path relation budget d synset w
               = (inr node, w').
Proof.
  intros Hl. induction budget as [|budget IH]; intros d synset w;
    rewrite expand_run;
    destruct (Node_new_total synset d w Hl) as (node & w1 & ->).
  - by eexists _, _.
  - destruct (mapM_run_total
                (expand lookup lexicon folder_path relation budget (S d))
                (wn_relations lexicon synset relation) (IH (S d)) w1)
      as (children & w2 & ->).
    by eexists _, _.
Qed.

End Builder.

Lemma build_total lookup lexicon folder_path seeds relation max_depth w :
  (∀ ssid w0, ∃ record w1,
      lookup ssid folder_path w0 = (inr record, w1)
      ∧ is_Some (record !! "viet_word")
      ∧ is_Some (record !! "viet_definition")
      ∧ is_Some (record !! "viet_example")
      ∧ is_Some (record !! "is_same")) →
  ∃ forest w',
    build lookup lexicon folder_path seeds relation max_depth w = (inr forest, w').
Proof.
  intros Hl. apply mapM_run_total. intros synset w0.
  by apply expand_total.
Qed.

(** C6: in a forest built with maximum depth [max_depth] there is one root
    per seed, every root is at depth 0, every node is at depth at most
    [max_depth], and every child is one level below its parent. *)
Theorem forest_depths (lookup : str → str → M (gmap string pyval))
    (lexicon : Wordnet) (folder_path : str) (seeds : list Synset)
    (relation : relation_kind) (max_depth : nat) (w w' : world)
    (forest : list Node) :
  build lookup lexicon folder_path seeds relation max_depth w = (inr forest, w') →
  _synset <$> forest = seeds
  ∧ Forall (λ root, _level root = 0) forest
  ∧ ∀ root n, root ∈ forest → n ∈ subnodes root →
      _level n ≤ max_depth
      ∧ ∀ c, c ∈ _children n → _level c = S (_level n).
Proof.
  intros Hb. apply mapM_run_inv in Hb.
  induction Hb as [|synset root seeds forest (w1 & w2 & Hx) _ (IH1 & IH2 & IH3)].
  - split; [done |]. split; [constructor |]. by intros root n ?%elem_of_nil.
  - apply expand_levels in Hx as (Hs & Hl & Hsub).
    split; [by rewrite fmap_cons, Hs, IH1 |].
    split; [by constructor |].
    intros r n [->|Hr]%elem_of_cons Hn.
    + destruct (Hsub n Hn) as [? ?]. split; [lia | done].
    + by apply (IH3 r).
Qed.

Lemma forest_depths_witness :
  ∃ forest w',
    build get_viet_info_flagged demo_lexicon (py "db")
      [mkSynset (py "oewn-1-n")] hyponym 2 demo_world = (inr forest, w')
    ∧ _synset <$> forest = [mkSynset (py "oewn-1-n")]
    ∧ ∀ root n, root ∈ forest → n ∈ subnodes root → _level n ≤ 2.
Proof.
  destruct (build get_viet_info_flagged demo_lexicon (py "db")
              [mkSynset (py "oewn-1-n")] hyponym 2 demo_world)
    as [[e|forest] w'] eqn:Hb.
  - vm_compute in Hb. discriminate Hb.
  - exists forest, w'. split; [reflexivity |].
    destruct (forest_depths _ _ _ _ _ _ _ _ _ Hb) as (Hs & _ & Hd).
    split; [exact Hs |].
    intros root n Hroot Hn. exact (proj1 (Hd root n Hroot Hn)).
Defined.

(** The provider of the example has a cycle; the depth bound ends the walk. *)
Example forest_demo_levels :
  match (build get_viet_info_flagged demo_lexicon (py "db")
           [mkSynset (py "oewn-1-n")] hyponym 2 demo_world).1 with
  | inr forest => (λ root : Node, _level <$> subnodes root) <$> forest
  | inl _ => []
  end = [[0; 1; 1; 2; 2]].
Proof. vm_compute. reflexivity. Qed.

(** * Further properties of the sources *)

#[local] Set Warnings "-clear-no-such-hyp".

(** ** The matchers *)

Section MatcherProperties.
Variable lower : str → str.
Variable ratio : str → str → Qc.

(** X1: the exact matcher returns, in table order and with repetitions
    kept, the identifiers of exactly the rows whose normalized source word
    equals the normalized query; the list is empty when no row matches. *)
Theorem exact_search_hits (user_input db_path : str) (w : world) (db : Database) :
  files w !! db_path = Some db →
  ∃ ids : list str,
    (exact_search_vietnet_search lower user_input db_path w).1 = inr ids
    ∧ ids = exact_synset_id <$>
              filter (λ row, normalize lower user_input
                             = normalize lower (exact_tieng row))
                     (VIETNET_EXACT_SEARCH db)
    ∧ (∀ ssid, ssid ∈ ids ↔
         ∃ row, row ∈ VIETNET_EXACT_SEARCH db
                ∧ exact_synset_id row = ssid
                ∧ normalize lower user_input = normalize lower (exact_tieng row))
    ∧ ((∀ row, row ∈ VIETNET_EXACT_SEARCH db →
               normalize lower user_input ≠ normalize lower (exact_tieng row)) →
       ids = []).
Proof.
  intros Hf. eexists. rewrite (exact_search_run _ _ _ _ _ Hf).
  split; [done |]. split; [done |]. unfold exact_matches. split.
  - intros ssid. rewrite list_elem_of_fmap. split.
    + intros [row [-> [Hn Hrow]%list_elem_of_filter]]. by exists row.
    + intros [row (Hrow & <- & Hn)]. exists row. split; [done |].
      by apply list_elem_of_filter.
  - intros Hnone.
    destruct (filter _ _) as [|row rows] eqn:Hfilter; [done |].
    assert (row ∈ row :: rows) as Hin by left.
    rewrite <- Hfilter in Hin. apply list_elem_of_filter in Hin as [Hn Hrow].
    by destruct (Hnone row Hrow).
Qed.

(** X2: both matchers see the query only through [normalize]: two inputs
    with the same normal form get the same outcome, in every world. *)
Theorem matchers_see_normalized_query (input1 input2 db_path : str)
    (threshold : Qc) (w : world) :
  normalize lower input1 = normalize lower input2 →
  exact_search_vietnet_search lower input1 db_path w
  = exact_search_vietnet_search lower input2 db_path w
  ∧ fuzzy_search_vietnet_search lower ratio input1 db_path threshold w
    = fuzzy_search_vietnet_search lower ratio input2 db_path threshold w.
Proof.
  intros Hn. unfold exact_search_vietnet_search, fuzzy_search_vietnet_search.
  cbn zeta. by rewrite Hn.
Qed.

Lemma search_function_unreadable (user_input : str) (lexicon : Wordnet)
    (db_path : str) (w : world) :
  contains (py "oewn-") user_input = false →
  files w !! db_path = None →
  search_function lower ratio user_input lexicon db_path w
  = (inl (DatabaseError db_path "VIETNET_EXACT_SEARCH"),
     log (ReadSql db_path "VIETNET_EXACT_SEARCH") w).
Proof.
  intros Hc Hf. unfold search_function. rewrite Hc.
  unfold mbind, M_bind, exact_search_vietnet_search, read_sql_query.
  unfold mbind, M_bind. by rewrite Hf.
Qed.

(** X3: a free-text search on a store that cannot be read raises the
    error of the first read, that of the exact-match table, before the
    provider is asked anything. *)
Theorem free_text_store_unavailable (user_input : str) (lexicon : Wordnet)
    (db_path : str) (w : world) :
  contains (py "oewn-") user_input = false →
  files w !! db_path = None →
  search_function lower ratio user_input lexicon db_path w
  = (inl (DatabaseError db_path "VIETNET_EXACT_SEARCH"),
     log (ReadSql db_path "VIETNET_EXACT_SEARCH") w).
Proof.
  intros Hc Hf.
  by rewrite (search_function_unreadable user_input lexicon db_path w Hc Hf).
Qed.

End MatcherProperties.

Lemma exact_search_hits_witness :
  (exact_search_vietnet_search lower_latin1 (py "  con chó") (py "db")
     demo_world).1 = inr [py "oewn-1-n"].
Proof.
  destruct (exact_search_hits lower_latin1 (py "  con chó") (py "db")
              demo_world demo_db eq_refl) as (ids & Hrun & -> & _).
  exact Hrun.
Defined.

Lemma matchers_see_normalized_query_witness :
  exact_search_vietnet_search lower_latin1 (py " DOG") (py "db") demo_world
  = exact_search_vietnet_search lower_latin1 (py "dog ") (py "db") demo_world.
Proof.
  apply (matchers_see_normalized_query lower_latin1 ratio_same (py " DOG")
           (py "dog ") (py "db") default_threshold demo_world).
  reflexivity.
Defined.

Lemma free_text_store_unavailable_witness :
  (search_function lower_latin1 ratio_same (py "dog") demo_lexicon
     (py "nowhere") demo_world).1
  = inl (DatabaseError (py "nowhere") "VIETNET_EXACT_SEARCH").
Proof.
  rewrite (free_text_store_unavailable lower_latin1 ratio_same (py "dog")
             demo_lexicon (py "nowhere") demo_world); reflexivity.
Defined.

(** ** The resolver *)

Section ResolverProperties.
Variable lower : str → str.
Variable ratio : str → str → Qc.

Lemma search_function_pairs (user_input : str) (lexicon : Wordnet)
    (db_path : str) (w : world) (candidates : list pyval) (message : pyval) :
  (search_function lower ratio user_input lexicon db_path w).1
  = inr (candidates, message) →
  (message = PyNone ∧ candidates ≠ [])
  ∨ (candidates = [] ∧ (∃ text, message = PyStr text) ∧ truthy message = true).
Proof.
  intros Hrun.
  assert (message = PyNone
          ∨ (candidates = [] ∧ (∃ text, message = PyStr text)
             ∧ truthy message = true)) as [->|?]; [| | by right].
  - revert Hrun. destruct (contains (py "oewn-") user_input) eqn:Hc.
    + rewrite (search_function_identifier _ _ _ _ _ _ Hc). cbn.
      destruct (wn_synset lexicon (strip user_input)); intros [= <- <-]; eauto.
    + destruct (files w !! db_path) as [db|] eqn:Hf.
      * destruct (known_or_first_unknown lexicon (exact_matches lower db user_input))
          as [[synsets Hknown]
             |(known & synsets & unknown & rest & Hsplit & Hknown & Hu)].
        -- rewrite (search_function_free_text _ _ _ _ _ _ _ _ Hc Hf Hknown).
           case_bool_decide; intros [= <- <-]; eauto.
        -- by rewrite (search_function_free_text_unknown _ _ _ _ _ _ _ _ _ _ _
                         Hc Hf Hsplit Hknown Hu).
      * by rewrite (search_function_unreadable _ _ _ _ _ _ Hc Hf).
  - left. split; [done |]. by eapply search_function_resolved_nonempty.
Qed.

(** X4: what a call returns is either at least one candidate and no
    message, or no candidate and a message that is a non-empty string; the
    test [if search_message] of the page script tells the two apart. *)
Theorem search_function_outcome_shape (user_input : str) (lexicon : Wordnet)
    (db_path : str) (w : world) (candidates : list pyval) (message : pyval) :
  (search_function lower ratio user_input lexicon db_path w).1
  = inr (candidates, message) →
  (message = PyNone ∧ candidates ≠ [] ∧ truthy message = false)
  ∨ (candidates = [] ∧ (∃ text, message = PyStr text) ∧ truthy message = true).
Proof.
  intros Hrun.
  destruct (search_function_pairs _ _ _ _ _ _ Hrun) as [[-> Hsome]|Hnone].
  - left. by repeat split.
  - by right.
Qed.

(** X5: on the free-text path the calls are made in this order: the
    exact-match table is read, the provider is asked for each identifier
    found, in order, then for the synsets of the input as it was typed (not
    normalized) as nouns; the fuzzy-match table is read after that, and only
    when neither path found anything.  At the first identifier the provider
    does not know the lookup raises [wn.Error] and nothing more is asked or
    read. *)
Theorem free_text_call_order (user_input : str) (lexicon : Wordnet)
    (db_path : str) (w : world) (db : Database) :
  contains (py "oewn-") user_input = false →
  files w !! db_path = Some db →
  let hits := exact_matches lower db user_input in
  let run := search_function lower ratio user_input lexicon db_path w in
  (∀ synsets,
     Forall2 (λ ssid synset, wn_synset lexicon ssid = Some synset) hits synsets →
     trace run.2
     = trace w
       ++ [ReadSql db_path "VIETNET_EXACT_SEARCH"]
       ++ (WnSynset <$> hits)
       ++ [WnSynsets user_input "n"]
       ++ (if bool_decide (hits = [] ∧ wn_synsets lexicon user_input "n" = [])
           then [ReadSql db_path "VIETNET_FUZZ_SEARCH"] else []))
  ∧ (∀ known synsets unknown rest,
       hits = known ++ unknown :: rest →
       Forall2 (λ ssid synset, wn_synset lexicon ssid = Some synset)
         known synsets →
       wn_synset lexicon unknown = None →
       run.1 = inl (WnError unknown)
       ∧ trace run.2
         = trace w
           ++ [ReadSql db_path "VIETNET_EXACT_SEARCH"]
           ++ (WnSynset <$> known) ++ [WnSynset unknown]).
Proof.
  intros Hc Hf hits run. split.
  - intros synsets Hknown. subst run.
    rewrite (search_function_free_text_run _ _ _ _ _ _ _ _ Hc Hf Hknown).
    cbn zeta. fold hits.
    assert (((PySynset <$> synsets)
             ++ (PySynset <$> wn_synsets lexicon user_input "n") = [])
            ↔ (hits = [] ∧ wn_synsets lexicon user_input "n" = [])) as Hiff.
    { split.
      - intros [Hv He]%app_eq_nil.
        apply fmap_nil_inv in Hv. apply fmap_nil_inv in He. subst synsets.
        by apply Forall2_nil_inv_r in Hknown.
      - intros [Hh ->]. rewrite Hh in Hknown.
        by apply Forall2_nil_inv_l in Hknown as ->. }
    rewrite (bool_decide_ext _ _ Hiff).
    case_bool_decide; cbn [snd log trace]; rewrite trace_log_all; cbn [log trace];
      by rewrite <- ?app_assoc.
  - intros known synsets unknown rest Hsplit Hknown Hu.
    subst run.
    rewrite (search_function_free_text_unknown _ _ _ _ _ _ _ _ _ _ _
               Hc Hf Hsplit Hknown Hu).
    split; [done |]. cbn [snd]. rewrite trace_log_all. cbn [log trace].
    by rewrite fmap_app, <- !app_assoc.
Qed.

(** X6: the candidates of the identifier path are identifiers (strings),
    those of the free-text path never are: they are what the provider
    returned. *)
Theorem candidate_kinds (user_input : str) (lexicon : Wordnet)
    (db_path : str) (w : world) (candidates : list pyval) (message : pyval) :
  (search_function lower ratio user_input lexicon db_path w).1
  = inr (candidates, message) →
  if contains (py "oewn-") user_input
  then ∀ x, x ∈ candidates → x = PyStr (strip user_input)
  else ∀ x text, x ∈ candidates → x ≠ PyStr text.
Proof.
  destruct (contains (py "oewn-") user_input) eqn:Hc.
  - rewrite (search_function_identifier _ _ _ _ _ _ Hc). cbn.
    destruct (wn_synset lexicon (strip user_input)); intros [= <- _] x.
    by intros ->%list_elem_of_singleton.
  - destruct (files w !! db_path) as [db|] eqn:Hf.
    + destruct (known_or_first_unknown lexicon (exact_matches lower db user_input))
        as [[synsets Hknown]
           |(known & synsets & unknown & rest & Hsplit & Hknown & Hu)].
      * rewrite (search_function_free_text _ _ _ _ _ _ _ _ Hc Hf Hknown).
        case_bool_decide; intros [= <- _] x text; [by intros ?%elem_of_nil |].
        rewrite elem_of_remove_dups, elem_of_app, !list_elem_of_fmap.
        by intros [[s [-> _]]|[s [-> _]]].
      * by rewrite (search_function_free_text_unknown _ _ _ _ _ _ _ _ _ _ _
                      Hc Hf Hsplit Hknown Hu).
    + by rewrite (search_function_unreadable _ _ _ _ _ _ Hc Hf).
Qed.

End ResolverProperties.

Lemma search_function_outcome_shape_witness :
  truthy (PyStr (py "Bạn hãy thử tìm các từ sau: con mèo")) = true.
Proof.
  destruct (search_function_outcome_shape lower_latin1 ratio_same (py " Con Mèo")
              demo_lexicon (py "db") demo_world []
              (PyStr (py "Bạn hãy thử tìm các từ sau: con mèo")))
    as [(H & _)|(_ & _ & H)].
  - vm_compute. reflexivity.
  - discriminate H.
  - exact H.
Defined.

Lemma free_text_call_order_witness :
  trace (search_function lower_latin1 ratio_same (py "Dog ") demo_lexicon
           (py "db") demo_world).2
  = [ReadSql (py "db") "VIETNET_EXACT_SEARCH"; WnSynset (py "oewn-1-n");
     WnSynsets (py "Dog ") "n"]
  ∧ trace (search_function lower_latin1 ratio_same (py "dog") demo_lexicon
             (py "db") stale_world).2
    = [ReadSql (py "db") "VIETNET_EXACT_SEARCH"; WnSynset (py "oewn-1-n");
       WnSynset (py "oewn-0-n")].
Proof.
  split.
  - destruct (free_text_call_order lower_latin1 ratio_same (py "Dog ") demo_lexicon
                (py "db") demo_world demo_db eq_refl eq_refl) as [Hknown _].
    rewrite (Hknown [mkSynset (py "oewn-1-n")]); [reflexivity |].
    vm_compute. repeat constructor.
  - destruct (free_text_call_order lower_latin1 ratio_same (py "dog") demo_lexicon
                (py "db") stale_world stale_db eq_refl eq_refl) as [_ Hunknown].
    destruct (Hunknown [py "oewn-1-n"] [mkSynset (py "oewn-1-n")]
                (py "oewn-0-n") []) as [_ Htrace].
    + reflexivity.
    + vm_compute. repeat constructor.
    + reflexivity.
    + exact Htrace.
Defined.

Lemma candidate_kinds_witness :
  PySynset (mkSynset (py "oewn-1-n")) ≠ PyStr (py "oewn-1-n").
Proof.
  apply (candidate_kinds lower_latin1 ratio_same (py "dog") demo_lexicon
           (py "db") demo_world [PySynset (mkSynset (py "oewn-1-n"))] PyNone).
  - vm_compute. reflexivity.
  - left.
Defined.

(** ** The fuzzy matcher *)

Section FuzzyProperties.
Variable lower : str → str.
Variable ratio : str → str → Qc.

(** X7: raising the threshold only removes suggestions: every word the
    matcher returns at a threshold is returned at every lower one. *)
Theorem fuzzy_threshold_monotone (user_input db_path : str) (low high : Qc)
    (w : world) (db : Database) :
  files w !! db_path = Some db →
  (low ≤ high)%Qc →
  ∃ more fewer : list str,
    (fuzzy_search_vietnet_search lower ratio user_input db_path low w).1
    = inr more
    ∧ (fuzzy_search_vietnet_search lower ratio user_input db_path high w).1
      = inr fewer
    ∧ ∀ word, word ∈ fewer → word ∈ more.
Proof.
  intros Hf Hle. eexists _, _. rewrite !(fuzzy_search_run _ _ _ _ _ _ _ Hf).
  split; [done |]. split; [done |].
  intros word. rewrite !list_elem_of_fmap.
  intros [[word' score] [-> Hin]]. exists (word', score). split; [done |].
  apply fuzzy_scored_elem in Hin as [row (Hrow & -> & -> & Hth)].
  apply fuzzy_scored_elem. exists row. repeat split; [done |].
  by eapply Qcle_trans.
Qed.

(** X8: pairs, not words, are made unique: a word label that clears the
    threshold with two different scores is returned twice. *)
Theorem fuzzy_word_repeats (user_input db_path : str) (threshold : Qc)
    (w : world) (db : Database) (row1 row2 : fuzz_row) :
  files w !! db_path = Some db →
  row1 ∈ VIETNET_FUZZ_SEARCH db →
  row2 ∈ VIETNET_FUZZ_SEARCH db →
  fuzz_word row1 = fuzz_word row2 →
  let score1 := ratio (normalize lower user_input) (normalize lower (fuzz_tieng row1)) in
  let score2 := ratio (normalize lower user_input) (normalize lower (fuzz_tieng row2)) in
  (threshold ≤ score1)%Qc →
  (threshold ≤ score2)%Qc →
  score1 ≠ score2 →
  ∃ words i j,
    (fuzzy_search_vietnet_search lower ratio user_input db_path threshold w).1
    = inr words
    ∧ i ≠ j
    ∧ words !! i = Some (fuzz_word row1)
    ∧ words !! j = Some (fuzz_word row1).
Proof.
  intros Hf Hr1 Hr2 Hword score1 score2 H1 H2 Hne.
  assert ((fuzz_word row1, score1)
          ∈ fuzzy_scored lower ratio db user_input threshold) as Hin1
    by (apply fuzzy_scored_elem; by exists row1).
  assert ((fuzz_word row1, score2)
          ∈ fuzzy_scored lower ratio db user_input threshold) as Hin2
    by (apply fuzzy_scored_elem; by exists row2).
  apply list_elem_of_lookup in Hin1 as [i Hi].
  apply list_elem_of_lookup in Hin2 as [j Hj].
  eexists _, i, j. rewrite (fuzzy_search_run _ _ _ _ _ _ _ Hf).
  split; [done |]. split.
  - intros ->. rewrite Hi in Hj. by injection Hj.
  - by rewrite !list_lookup_fmap, Hi, Hj.
Qed.

End FuzzyProperties.

Lemma fuzzy_threshold_monotone_witness :
  ∃ more fewer : list str,
    (fuzzy_search_vietnet_search lower_latin1 ratio_graded (py "con") (py "db")
       (Qc_of_Z 80) graded_world).1 = inr more
    ∧ (fuzzy_search_vietnet_search lower_latin1 ratio_graded (py "con") (py "db")
         (Qc_of_Z 95) graded_world).1 = inr fewer
    ∧ ∀ word, word ∈ fewer → word ∈ more.
Proof.
  apply (fuzzy_threshold_monotone lower_latin1 ratio_graded (py "con") (py "db")
           (Qc_of_Z 80) (Qc_of_Z 95) graded_world graded_db).
  - reflexivity.
  - vm_compute. discriminate.
Defined.

Lemma fuzzy_word_repeats_witness :
  ∃ words i j,
    (fuzzy_search_vietnet_search lower_latin1 ratio_graded (py "con") (py "db")
       (Qc_of_Z 80) graded_world).1 = inr words
    ∧ i ≠ j
    ∧ words !! i = Some (py "mèo")
    ∧ words !! j = Some (py "mèo").
Proof.
  apply (fuzzy_word_repeats lower_latin1 ratio_graded (py "con") (py "db")
           (Qc_of_Z 80) graded_world graded_db
           (mkFuzzRow (py "con mèo") (py "mèo")) (mkFuzzRow (py "con") (py "mèo"))).
  - reflexivity.
  - left.
  - right. left.
  - reflexivity.
  - vm_compute. discriminate.
  - vm_compute. discriminate.
  - vm_compute. discriminate.
Defined.

Example fuzzy_word_repeats_demo :
  (fuzzy_search_vietnet_search lower_latin1 ratio_graded (py "con") (py "db")
     (Qc_of_Z 80) graded_world).1 = inr [py "mèo"; py "mèo"].
Proof. vm_compute. reflexivity. Qed.

(** ** The annotation lookup *)

Lemma numbered_from_nil i items : numbered_from i items = [] ↔ items = [].
Proof.
  split; [| by intros ->].
  destruct items as [|item items]; [done |]. cbn [numbered_from].
  intros [_ [H _]%app_eq_nil]%app_eq_nil. vm_compute in H. discriminate H.
Qed.

(** X9: for an identifier with rows every field is a string, never
    [None]: the lemmas of the rows joined by a comma and a space in store
    order, a definition string that is not empty, and an example string that
    is empty exactly when no row has an example. *)
Theorem annotation_present_values (synset_id db_path : str) (w : world)
    (db : Database) :
  files w !! db_path = Some db →
  annotation_rows db synset_id ≠ [] →
  ∃ (record : gmap string pyval) (definitions examples : str),
    (get_viet_info_from_synset synset_id db_path w).1 = inr record
    ∧ record !! "viet_word"
      = Some (PyStr (join (py ", ") (viet_word <$> annotation_rows db synset_id)))
    ∧ record !! "viet_definition" = Some (PyStr definitions)
    ∧ definitions ≠ []
    ∧ record !! "viet_example" = Some (PyStr examples)
    ∧ (examples = [] ↔
       ∀ row, row ∈ annotation_rows db synset_id → viet_example row = None).
Proof.
  intros Hf Hrows. eexists _, _, _.
  rewrite (get_viet_info_rows _ _ _ _ Hf Hrows).
  split; [done |]. split; [by simplify_map_eq |].
  split; [by simplify_map_eq |]. split.
  { unfold spec_definitions, numbered. rewrite numbered_from_nil.
    intros ?%fmap_nil_inv. done. }
  split; [by simplify_map_eq |].
  unfold spec_examples, numbered. rewrite numbered_from_nil.
  generalize (annotation_rows db synset_id). intros rows.
  induction rows as [|row rows IH]; cbn.
  - split; [by intros _ row ?%elem_of_nil | done].
  - destruct (viet_example row) as [e|] eqn:He; cbn.
    + split; [done |]. intros Hall.
      specialize (Hall row (list_elem_of_here _ _)). congruence.
    + rewrite IH. split.
      * intros Hall r [->|Hr]%elem_of_cons; [done | by apply Hall].
      * intros Hall r Hr. apply Hall. by right.
Qed.

Lemma annotation_present_values_witness :
  ∃ (record : gmap string pyval) (definitions examples : str),
    (get_viet_info_from_synset (py "oewn-2-n") (py "db") demo_world).1 = inr record
    ∧ record !! "viet_word" = Some (PyStr (py "x"))
    ∧ record !! "viet_definition" = Some (PyStr definitions)
    ∧ definitions ≠ []
    ∧ record !! "viet_example" = Some (PyStr examples)
    ∧ (examples = [] ↔
       ∀ row, row ∈ annotation_rows demo_db (py "oewn-2-n") →
              viet_example row = None).
Proof.
  apply (annotation_present_values (py "oewn-2-n") (py "db") demo_world demo_db).
  - reflexivity.
  - vm_compute. discriminate.
Defined.

(** X10: a record the lookup returns has the three keys [viet_word],
    [viet_definition] and [viet_example] and no other, with rows or
    without. *)
Theorem annotation_record_keys (synset_id db_path : str) (w : world)
    (record : gmap string pyval) :
  (get_viet_info_from_synset synset_id db_path w).1 = inr record →
  dom record = ({[ "viet_word"; "viet_definition"; "viet_example" ]} : gset string).
Proof.
  destruct (files w !! db_path) as [db|] eqn:Hf.
  - destruct (decide (annotation_rows db synset_id = [])) as [Hrows|Hrows].
    + rewrite (get_viet_info_no_row _ _ _ _ Hf Hrows). intros [= <-].
      rewrite !dom_insert_L, dom_singleton_L. set_solver.
    + rewrite (get_viet_info_rows _ _ _ _ Hf Hrows). intros [= <-].
      rewrite !dom_insert_L, dom_singleton_L. set_solver.
  - by rewrite (get_viet_info_unavailable _ _ _ Hf).
Qed.

Lemma annotation_record_keys_witness :
  dom ({[ "viet_word" := PyNone; "viet_definition" := PyNone;
          "viet_example" := PyNone ]} : gmap string pyval)
  = ({[ "viet_word"; "viet_definition"; "viet_example" ]} : gset string).
Proof.
  apply (annotation_record_keys (py "oewn-9-n") (py "db") demo_world).
  reflexivity.
Defined.

(** X11: nothing is cached: every lookup, whatever it returns, reads the
    annotation table once, so two lookups in a row leave two reads in the
    trace. *)
Theorem annotation_lookup_requeries (synset_id db_path : str) (w : world) :
  let first := get_viet_info_from_synset synset_id db_path w in
  let second := get_viet_info_from_synset synset_id db_path first.2 in
  trace first.2 = trace w ++ [ReadSql db_path "VIETNET_DATA"]
  ∧ trace second.2
    = trace w ++ [ReadSql db_path "VIETNET_DATA"; ReadSql db_path "VIETNET_DATA"].
Proof.
  assert (∀ w0, trace (get_viet_info_from_synset synset_id db_path w0).2
                = trace w0 ++ [ReadSql db_path "VIETNET_DATA"]) as Hone.
  { intros w0. unfold get_viet_info_from_synset, mbind, M_bind, read_sql_query.
    destruct (files w0 !! db_path) as [db|]; [| done].
    by destruct (negb _). }
  cbn zeta. split; [apply Hone |].
  rewrite Hone, Hone. by rewrite <- app_assoc.
Qed.

(** ** The constructor of [Node] and the page script *)



Section BrowserProperties.
Variable lower : str → str.
Variable ratio : str → str → Qc.


End BrowserProperties.


(** ** The hyponym walk *)

Lemma synset_id_inj (s t : Synset) : synset_id s = synset_id t → s = t.
Proof. destruct s, t. cbn. by intros ->. Qed.

(** The state after the hyponyms of one synset have been gone through. *)
Lemma foldl_visit_hyponym (hyponyms : list Synset) :
  ∀ queue visited all_hyponyms,
    ∃ new,
      foldl visit_hyponym (queue, visited, all_hyponyms) hyponyms
      = (queue ++ new,
         visited ∪ list_to_set (synset_id <$> hyponyms),
         all_hyponyms ∪ (list_to_set (synset_id <$> hyponyms) ∖ visited))
      ∧ (∀ s, s ∈ new ↔ s ∈ hyponyms ∧ synset_id s ∉ visited)
      ∧ length new + size visited
        = size (visited ∪ list_to_set (synset_id <$> hyponyms)).
Proof.
  induction hyponyms as [|h hs IH]; intros queue visited all_hyponyms.
  - exists []. cbn. split; [| split].
    + rewrite app_nil_r. f_equal; [f_equal |]; set_solver.
    + intros s. split; [by intros ?%elem_of_nil | by intros [?%elem_of_nil _]].
    + f_equal. set_solver.
  - cbn [foldl]. unfold visit_hyponym at 2.
    destruct (decide (synset_id h ∈ visited)) as [Hin|Hout].
    + destruct (IH queue visited all_hyponyms) as (new & -> & Hnew & Hsize).
      exists new. rewrite fmap_cons, list_to_set_cons. split; [| split].
      * f_equal; [f_equal |]; set_solver.
      * intros s. rewrite Hnew, elem_of_cons. split; [naive_solver |].
        intros [[->|?] ?]; done.
      * rewrite Hsize. f_equal. set_solver.
    + destruct (IH (queue ++ [h]) (visited ∪ {[synset_id h]})
                  (all_hyponyms ∪ {[synset_id h]})) as (new & -> & Hnew & Hsize).
      exists (h :: new). rewrite fmap_cons, list_to_set_cons. split; [| split].
      * rewrite <- app_assoc. f_equal; [f_equal |].
        -- set_solver.
        -- apply set_eq. intros x.
           destruct (decide (x = synset_id h)) as [->|?]; set_solver.
      * intros s. rewrite !elem_of_cons, Hnew. split.
        -- intros [->|[? ?]]; [split; [by left | done] |]. set_solver.
        -- intros [[->|Hs] Hv]; [by left |].
           destruct (decide (synset_id s = synset_id h)) as [Heq|Hne].
           ++ left. by apply synset_id_inj.
           ++ right. set_solver.
      * cbn [length].
        replace (visited ∪ ({[synset_id h]} ∪ list_to_set (synset_id <$> hs)))
          with (visited ∪ {[synset_id h]} ∪ list_to_set (synset_id <$> hs))
          by set_solver.
        rewrite <- Hsize, size_union, size_singleton by set_solver. lia.
Qed.

Section Walk.
Variable lexicon : Wordnet.
Variable root_synset : Synset.
Variable root_id : str.

Lemma walk_sound_round current queue visited all_hyponyms :
  walk_sound lexicon root_synset root_id (current :: queue, visited, all_hyponyms) →
  walk_sound lexicon root_synset root_id
    (foldl visit_hyponym (queue, visited, all_hyponyms)
       (wn_relations lexicon current hyponym)).
Proof.
  intros (Hv & Hroot & Hq & Hall).
  destruct (foldl_visit_hyponym (wn_relations lexicon current hyponym)
              queue visited all_hyponyms) as (new & -> & Hnew & _).
  assert (rtc (hyponym_of lexicon) root_synset current) as Hcur
    by (apply Hq; left).
  split; [| split; [| split]].
  - rewrite Hv. apply set_eq. intros x.
    destruct (decide (x ∈ ({[root_id]} ∪ all_hyponyms : gset str))); set_solver.
  - set_solver.
  - intros s [Hs|Hs]%elem_of_app.
    + apply Hq. by right.
    + apply Hnew in Hs as [Hs _]. by eapply rtc_r.
  - intros id [Hid|[Hid _]%elem_of_difference]%elem_of_union; [by apply Hall |].
    apply elem_of_list_to_set, list_elem_of_fmap in Hid as (h & -> & Hh).
    exists h. split; [done |]. eapply tc_rtc_l; [exact Hcur |]. by apply tc_once.
Qed.

Lemma hyponym_walk_sound fuel :
  ∀ queue visited all_hyponyms found,
    walk_sound lexicon root_synset root_id (queue, visited, all_hyponyms) →
    hyponym_walk fuel lexicon queue visited all_hyponyms = Some found →
    (root_id ∉ found)
    ∧ ∀ id, id ∈ found →
        ∃ s, synset_id s = id ∧ tc (hyponym_of lexicon) root_synset s.
Proof.
  induction fuel as [|fuel IH]; intros queue visited all_hyponyms found Hinv;
    destruct queue as [|current queue]; cbn [hyponym_walk].
  - intros [= <-]. by destruct Hinv as (_ & ? & _ & ?).
  - done.
  - intros [= <-]. by destruct Hinv as (_ & ? & _ & ?).
  - apply walk_sound_round in Hinv.
    destruct (foldl visit_hyponym _ _) as [[queue' visited'] all'].
    by apply IH.
Qed.

Lemma closed_reaches (visited : gset str) :
  synset_id root_synset ∈ visited →
  (∀ s, synset_id s ∈ visited →
        ∀ h, hyponym_of lexicon s h → synset_id h ∈ visited) →
  ∀ s, rtc (hyponym_of lexicon) root_synset s → synset_id s ∈ visited.
Proof.
  intros Hroot Hclosed s Hs.
  eapply (rtc_ind_r (λ s, synset_id s ∈ visited)); [exact Hroot | | exact Hs].
  intros y z _ Hyz Hy. by eapply Hclosed.
Qed.

Lemma walk_closing_round universe current queue visited all_hyponyms :
  (∀ s, rtc (hyponym_of lexicon) root_synset s → synset_id s ∈ universe) →
  walk_sound lexicon root_synset root_id (current :: queue, visited, all_hyponyms) →
  walk_closing lexicon universe (current :: queue, visited, all_hyponyms) →
  ∃ queue' visited' all',
    foldl visit_hyponym (queue, visited, all_hyponyms)
      (wn_relations lexicon current hyponym) = (queue', visited', all')
    ∧ walk_closing lexicon universe (queue', visited', all')
    ∧ length queue' + size visited = length queue + size visited'.
Proof.
  intros Huniv (_ & _ & Hq & _) (Hsub & Hclosed).
  destruct (foldl_visit_hyponym (wn_relations lexicon current hyponym)
              queue visited all_hyponyms) as (new & -> & Hnew & Hsize).
  eexists _, _, _. split; [done |].
  assert (rtc (hyponym_of lexicon) root_synset current) as Hcur
    by (apply Hq; left).
  split; [split |].
  - intros id [Hid|Hid]%elem_of_union; [by apply Hsub |].
    apply elem_of_list_to_set, list_elem_of_fmap in Hid as (h & -> & Hh).
    apply Huniv. by eapply rtc_r.
  - intros s [Hs|Hs]%elem_of_union.
    + destruct (Hclosed s Hs) as [[->|Hin]%elem_of_cons|Hdone].
      * right. intros h Hh. apply elem_of_union. right.
        apply elem_of_list_to_set, list_elem_of_fmap. by exists h.
      * left. apply elem_of_app. by left.
      * right. intros h Hh. apply elem_of_union. left. by apply Hdone.
    + destruct (decide (synset_id s ∈ visited)) as [Hin|Hout].
      * destruct (Hclosed s Hin) as [[->|Hq']%elem_of_cons|Hdone].
        -- right. intros h Hh. apply elem_of_union. right.
           apply elem_of_list_to_set, list_elem_of_fmap. by exists h.
        -- left. apply elem_of_app. by left.
        -- right. intros h Hh. apply elem_of_union. left. by apply Hdone.
      * left. apply elem_of_app. right. apply Hnew.
        apply elem_of_list_to_set, list_elem_of_fmap in Hs as (h & Heq & Hh).
        apply synset_id_inj in Heq as ->. done.
  - rewrite length_app. lia.
Qed.

Lemma hyponym_walk_complete universe fuel :
  synset_id root_synset = root_id →
  (∀ s, rtc (hyponym_of lexicon) root_synset s → synset_id s ∈ universe) →
  ∀ queue visited all_hyponyms,
    walk_sound lexicon root_synset root_id (queue, visited, all_hyponyms) →
    walk_closing lexicon universe (queue, visited, all_hyponyms) →
    length queue + size universe ≤ fuel + size visited →
    ∃ found,
      hyponym_walk fuel lexicon queue visited all_hyponyms = Some found
      ∧ ∀ s, tc (hyponym_of lexicon) root_synset s →
             synset_id s ≠ root_id → synset_id s ∈ found.
Proof.
  intros Hroot Huniv.
  induction fuel as [|fuel IH]; intros queue visited all_hyponyms Hsound Hclosing Hfuel;
    destruct queue as [|current queue]; cbn [hyponym_walk].
  1, 3: (exists all_hyponyms; split; [done |];
    destruct Hsound as (Hv & _); destruct Hclosing as (_ & Hclosed);
    intros s Hs%tc_rtc Hne;
    assert (synset_id s ∈ visited) as Hin
      by (apply (closed_reaches visited); [rewrite Hroot, Hv; set_solver | | done];
          intros t Ht; by destruct (Hclosed t Ht) as [?%elem_of_nil|Hdone]);
    rewrite Hv in Hin; set_solver).
  - exfalso. destruct Hclosing as (Hsub & _).
    apply subseteq_size in Hsub. cbn in Hfuel. lia.
  - destruct (walk_closing_round universe current queue visited all_hyponyms
                Huniv Hsound Hclosing) as (queue' & visited' & all' & Heq & Hc & Hsize).
    apply walk_sound_round in Hsound. rewrite Heq in Hsound |- *.
    apply IH; [done | done |]. cbn in Hfuel. lia.
Qed.

End Walk.

(** X14: whatever the walk returns, the root identifier is not in it, and
    every identifier in it belongs to a synset reached from the root synset
    along one or more hyponym edges; for an unknown root the result is the
    empty set. *)
Theorem get_all_hyponyms_sound (fuel : nat) (lexicon : Wordnet)
    (root_synset_id : str) (found : gset str) :
  get_all_hyponyms fuel lexicon root_synset_id = Some found →
  (root_synset_id ∉ found)
  ∧ (wn_synset lexicon root_synset_id = None → found = ∅)
  ∧ ∀ root_synset,
      wn_synset lexicon root_synset_id = Some root_synset →
      ∀ id, id ∈ found →
        ∃ s, synset_id s = id ∧ tc (hyponym_of lexicon) root_synset s.
Proof.
  unfold get_all_hyponyms.
  destruct (wn_synset lexicon root_synset_id) as [root_synset|].
  - intros Hwalk.
    destruct (hyponym_walk_sound lexicon root_synset root_synset_id fuel
                [root_synset] {[root_synset_id]} ∅ found) as [Hroot Hall];
      [| done |].
    { split; [set_solver |]. split; [set_solver |]. split.
      - by intros s ->%list_elem_of_singleton.
      - by intros id ?%elem_of_empty. }
    split; [done |]. split; [done |]. by intros ? [= <-].
  - intros [= <-]. split; [set_solver |]. split; [done |]. done.
Qed.

(** X15: when the identifiers of the synsets reached from the root all lie
    in a finite set, as many rounds as the set has elements are enough for
    the walk to end, and it returns exactly the identifiers, other than the
    root's, of the synsets reached along hyponym edges, cycles included. *)
Theorem get_all_hyponyms_complete (fuel : nat) (lexicon : Wordnet)
    (root_synset_id : str) (root_synset : Synset) (universe : gset str) :
  wn_synset lexicon root_synset_id = Some root_synset →
  synset_id root_synset = root_synset_id →
  (∀ s, rtc (hyponym_of lexicon) root_synset s → synset_id s ∈ universe) →
  size universe ≤ fuel →
  ∃ found,
    get_all_hyponyms fuel lexicon root_synset_id = Some found
    ∧ ∀ id, id ∈ found ↔
        id ≠ root_synset_id
        ∧ ∃ s, synset_id s = id ∧ tc (hyponym_of lexicon) root_synset s.
Proof.
  intros Hsyn Hid Huniv Hfuel.
  assert (walk_sound lexicon root_synset root_synset_id
            ([root_synset], {[root_synset_id]}, ∅)) as Hsound.
  { split; [set_solver |]. split; [set_solver |]. split.
    - by intros s ->%list_elem_of_singleton.
    - by intros id ?%elem_of_empty. }
  destruct (hyponym_walk_complete lexicon root_synset root_synset_id universe fuel
              Hid Huniv [root_synset] {[root_synset_id]} ∅ Hsound)
    as (found & Hwalk & Hall).
  { split.
    - intros id ->%elem_of_singleton. rewrite <- Hid. by apply Huniv.
    - intros s Hs%elem_of_singleton. left. rewrite <- Hid in Hs.
      apply synset_id_inj in Hs as ->. by left. }
  { rewrite size_singleton. cbn. lia. }
  exists found. unfold get_all_hyponyms. rewrite Hsyn. split; [done |].
  destruct (hyponym_walk_sound lexicon root_synset root_synset_id fuel
              [root_synset] {[root_synset_id]} ∅ found Hsound Hwalk)
    as [Hroot Hreach].
  intros id. split.
  - intros Hin. split; [by intros -> | by apply Hreach].
  - intros [Hne (s & <- & Hs)]. by apply Hall.
Qed.

Lemma get_all_hyponyms_sound_witness :
  py "oewn-1-n" ∉ ({[ py "oewn-2-n" ]} : gset str).
Proof.
  apply (get_all_hyponyms_sound 5 demo_lexicon (py "oewn-1-n") {[ py "oewn-2-n" ]}).
  vm_compute. reflexivity.
Defined.

Lemma demo_lexicon_reach (s : Synset) :
  rtc (hyponym_of demo_lexicon) (mkSynset (py "oewn-1-n")) s →
  synset_id s ∈ ({[ py "oewn-1-n"; py "oewn-2-n" ]} : gset str).
Proof.
  intros Hs.
  eapply (rtc_ind_r (λ s, s = mkSynset (py "oewn-1-n")
                          ∨ s = mkSynset (py "oewn-2-n"))) in Hs.
  - destruct Hs as [->| ->]; cbn; set_solver.
  - by left.
  - intros y z _ Hyz [->| ->]; unfold hyponym_of in Hyz; vm_compute in Hyz.
    + apply list_elem_of_In in Hyz. cbn in Hyz.
      destruct Hyz as [<-|[<-|[]]]; [by right | by left].
    + by apply elem_of_nil in Hyz.
Qed.

Lemma get_all_hyponyms_complete_witness :
  ∃ found,
    get_all_hyponyms 2 demo_lexicon (py "oewn-1-n") = Some found
    ∧ ∀ id, id ∈ found ↔
        id ≠ py "oewn-1-n"
        ∧ ∃ s, synset_id s = id
               ∧ tc (hyponym_of demo_lexicon) (mkSynset (py "oewn-1-n")) s.
Proof.
  apply (get_all_hyponyms_complete 2 demo_lexicon (py "oewn-1-n")
           (mkSynset (py "oewn-1-n")) {[ py "oewn-1-n"; py "oewn-2-n" ]}).
  - reflexivity.
  - reflexivity.
  - apply demo_lexicon_reach.
  - vm_compute. lia.
Defined.

(** The lexicon of the examples has the cycle 1 → 1; the walk ends and
    leaves the root out. *)
Example get_all_hyponyms_demo :
  elements <$> get_all_hyponyms 2 demo_lexicon (py "oewn-1-n")
  = Some [py "oewn-2-n"].
Proof. vm_compute. reflexivity. Qed.

(** ** The relations inside a domain *)

Lemma collect_targets_cons (domain_synsets : gset str) (key : str)
    (rel_type : string) (t : Synset) (ts : list Synset)
    (relations_map : gmap str (list (string * str))) :
  collect_targets domain_synsets key rel_type (t :: ts) relations_map
  = collect_targets domain_synsets key rel_type ts
      (if decide (synset_id t ∈ domain_synsets)
       then append_relation relations_map key rel_type (synset_id t)
       else relations_map).
Proof. done. Qed.

Lemma collect_targets_lookup (domain_synsets : gset str) (key : str)
    (rel_type : string) (targets : list Synset) :
  ∀ (relations_map : gmap str (list (string * str))) k,
    collect_targets domain_synsets key rel_type targets relations_map !! k
    = let new := (rel_type,.) <$> filter (.∈ domain_synsets) (synset_id <$> targets) in
      if decide (k = key ∧ new ≠ [])
      then Some (default [] (relations_map !! k) ++ new)
      else relations_map !! k.
Proof.
  induction targets as [|t ts IH]; intros relations_map k; cbn zeta.
  - cbn. by rewrite decide_False by (by intros [_ ?]).
  - rewrite collect_targets_cons, fmap_cons, filter_cons.
    destruct (decide (synset_id t ∈ domain_synsets)) as [Hin|Hout].
    + rewrite IH. cbn zeta. rewrite fmap_cons. unfold append_relation.
      destruct (decide (k = key)) as [->|Hne].
      * rewrite lookup_insert_eq. cbn [default id].
        rewrite (decide_True (P := key = key ∧ _ :: _ ≠ [])) by done.
        destruct (decide (key = key ∧ _ ≠ [])) as [_|Hnil].
        -- by rewrite <- app_assoc.
        -- destruct (_ <$> filter _ _) as [|e es]; [done |].
           destruct Hnil. done.
      * rewrite lookup_insert_ne by done.
        rewrite !decide_False by (by intros [? _]). done.
    + by rewrite IH.
Qed.

Lemma collect_synset_lookup (lexicon : Wordnet) (domain_synsets : gset str)
    (key : str) (synset : Synset)
    (relations_map : gmap str (list (string * str))) (k : str) :
  collect_targets domain_synsets key "hyponym" (wn_relations lexicon synset hyponym)
    (collect_targets domain_synsets key "hypernym"
       (wn_relations lexicon synset hypernym) relations_map) !! k
  = if decide (k = key ∧ domain_entries lexicon domain_synsets synset ≠ [])
    then Some (default [] (relations_map !! k)
               ++ domain_entries lexicon domain_synsets synset)
    else relations_map !! k.
Proof.
  rewrite !collect_targets_lookup. cbn zeta. unfold domain_entries.
  set (ups := ("hypernym",.) <$> _). set (downs := ("hyponym",.) <$> _).
  destruct (decide (k = key)) as [->|Hne].
  - destruct ups as [|u ups], downs as [|d downs]; cbn [app];
      repeat case_decide; cbn [default id];
      rewrite ?app_nil_r, <- ?app_assoc; try done; exfalso; naive_solver.
  - by rewrite !decide_False by (by intros [? _]).
Qed.

Lemma extract_loop_lookup (lexicon : Wordnet) (domain_synsets : gset str)
    (keys : list str) :
  NoDup keys →
  ∀ (relations_map : gmap str (list (string * str))) k,
    foldl (λ relations_map key,
             match wn_synset lexicon key with
             | None => relations_map
             | Some synset =>
               collect_targets domain_synsets key "hyponym"
                 (wn_relations lexicon synset hyponym)
                 (collect_targets domain_synsets key "hypernym"
                    (wn_relations lexicon synset hypernym) relations_map)
             end)
          relations_map keys !! k
    = match wn_synset lexicon k with
      | Some synset =>
        if decide (k ∈ keys ∧ domain_entries lexicon domain_synsets synset ≠ [])
        then Some (default [] (relations_map !! k)
                   ++ domain_entries lexicon domain_synsets synset)
        else relations_map !! k
      | None => relations_map !! k
      end.
Proof.
  induction 1 as [|key keys Hfresh Hnodup IH]; intros relations_map k; cbn [foldl].
  - destruct (wn_synset lexicon k); [| done].
    by rewrite decide_False by (by intros [?%elem_of_nil _]).
  - rewrite IH. destruct (decide (k = key)) as [->|Hne].
    + destruct (wn_synset lexicon key) as [synset|] eqn:Hsyn; [| done].
      rewrite decide_False by (by intros [? _]).
      rewrite collect_synset_lookup.
      destruct (decide (domain_entries lexicon domain_synsets synset = [])) as [Hnil|Hsome].
      * rewrite !decide_False by (by intros [_ ?]). done.
      * rewrite !decide_True; [done | | done]. split; [left | done].
    + assert (∀ synset : Synset,
                (k ∈ key :: keys ∧ domain_entries lexicon domain_synsets synset ≠ [])
                ↔ (k ∈ keys ∧ domain_entries lexicon domain_synsets synset ≠ []))
        as Hiff by (intros; rewrite elem_of_cons; naive_solver).
      assert (∀ m : gmap str (list (string * str)),
                match wn_synset lexicon key with
                | None => m
                | Some synset =>
                  collect_targets domain_synsets key "hyponym"
                    (wn_relations lexicon synset hyponym)
                    (collect_targets domain_synsets key "hypernym"
                       (wn_relations lexicon synset hypernym) m)
                end !! k = m !! k) as Hother.
      { intros m. destruct (wn_synset lexicon key); [| done].
        rewrite collect_synset_lookup. by rewrite decide_False by (by intros [? _]). }
      rewrite Hother. destruct (wn_synset lexicon k) as [synset|]; [| done].
      by rewrite (decide_ext _ _ _ _ (Hiff synset)).
Qed.

Lemma extract_domain_relations_key (lexicon : Wordnet)
    (domain_synsets : gset str) (key : str) :
  extract_domain_relations lexicon domain_synsets !! key
  = match wn_synset lexicon key with
    | Some synset =>
      if decide (key ∈ domain_synsets
                 ∧ domain_entries lexicon domain_synsets synset ≠ [])
      then Some (domain_entries lexicon domain_synsets synset)
      else None
    | None => None
    end.
Proof.
  unfold extract_domain_relations.
  rewrite (extract_loop_lookup lexicon domain_synsets (elements domain_synsets)
             (NoDup_elements domain_synsets) ∅ key).
  rewrite lookup_empty. destruct (wn_synset lexicon key) as [synset|]; [| done].
  cbn [default app].
  apply decide_ext. by rewrite elem_of_elements.
Qed.

(** X16: the map of relations has a key exactly for the identifiers of the
    domain that the lexicon knows and that have a hypernym or hyponym inside
    the domain; under a key stand the hypernyms in the domain, then the
    hyponyms in the domain, in the provider's order.  The order in which the
    set is gone through does not show in the result. *)
Theorem extract_domain_relations_lookup (lexicon : Wordnet)
    (domain_synsets : gset str) (key : str) :
  extract_domain_relations lexicon domain_synsets !! key
  = match wn_synset lexicon key with
    | Some synset =>
      if decide (key ∈ domain_synsets
                 ∧ domain_entries lexicon domain_synsets synset ≠ [])
      then Some (domain_entries lexicon domain_synsets synset)
      else None
    | None => None
    end.
Proof.
  rewrite extract_domain_relations_key.
  destruct (wn_synset lexicon key) as [synset|]; done.
Qed.

(** X17: whatever is recorded stays inside the domain: a key of the map is
    in the domain, its list is not empty, and each entry is a hypernym or a
    hyponym edge of the key's synset to a target of the domain. *)
Theorem extract_domain_relations_inside (lexicon : Wordnet)
    (domain_synsets : gset str) (key : str) (entries : list (string * str)) :
  extract_domain_relations lexicon domain_synsets !! key = Some entries →
  key ∈ domain_synsets
  ∧ entries ≠ []
  ∧ ∃ synset,
      wn_synset lexicon key = Some synset
      ∧ ∀ rel_type target_id,
          (rel_type, target_id) ∈ entries →
          target_id ∈ domain_synsets
          ∧ ((rel_type = "hypernym"
              ∧ ∃ t, t ∈ wn_relations lexicon synset hypernym
                     ∧ synset_id t = target_id)
             ∨ (rel_type = "hyponym"
                ∧ ∃ t, t ∈ wn_relations lexicon synset hyponym
                       ∧ synset_id t = target_id)).
Proof.
  rewrite extract_domain_relations_key.
  destruct (wn_synset lexicon key) as [synset|]; [| done].
  case_decide as Hin; [| done]. destruct Hin as [Hkey Hsome].
  intros [= <-]. split; [done |]. split; [done |].
  exists synset. split; [done |].
  intros rel_type target_id. unfold domain_entries.
  rewrite elem_of_app, !list_elem_of_fmap.
  intros [[id [[= -> ->] [Hd Hid]%list_elem_of_filter]]
         |[id [[= -> ->] [Hd Hid]%list_elem_of_filter]]];
    apply list_elem_of_fmap in Hid as (t & -> & Ht);
    (split; [done |]); [left | right]; (split; [done |]); by exists t.
Qed.

Lemma extract_domain_relations_inside_witness :
  py "oewn-1-n" ∈ ({[ py "oewn-1-n"; py "oewn-2-n" ]} : gset str)
  ∧ [("hypernym", py "oewn-2-n"); ("hypernym", py "oewn-1-n");
     ("hyponym", py "oewn-2-n"); ("hyponym", py "oewn-1-n")] ≠ [].
Proof.
  destruct (extract_domain_relations_inside demo_lexicon
              {[ py "oewn-1-n"; py "oewn-2-n" ]} (py "oewn-1-n")
              [("hypernym", py "oewn-2-n"); ("hypernym", py "oewn-1-n");
               ("hyponym", py "oewn-2-n"); ("hyponym", py "oewn-1-n")])
    as (Hkey & Hsome & _).
  - vm_compute. reflexivity.
  - split; [exact Hkey | exact Hsome].
Defined.

(** A synset outside the domain is neither a key nor a target. *)
Example extract_domain_relations_demo :
  extract_domain_relations demo_lexicon {[ py "oewn-1-n" ]}
  = {[ py "oewn-1-n" := [("hypernym", py "oewn-1-n"); ("hyponym", py "oewn-1-n")] ]}.
Proof. vm_compute. reflexivity. Qed.
